(** * The browser demos of the repository

    Three scripts are embedded here, each in a module with its
    definitions and a module with its proofs:
    - the omok (five-in-a-row) board engine ([Omok]);
    - the layout of the menu-tree diagram ([TreeLayout]);
    - the reaction-time test and its leaderboard ([ReactionTest]).
    The definitions come first, the proofs after them. *)

From Stdlib Require Import ZArith Lia.
From stdpp Require Import base list sorting strings.

Open Scope Z_scope.

(** * The tree diagram generator: definitions

    [calculateLayout] and [drawConnections] of the menu-tree demo.  The
    layout works on objects that are created by [traverse], pushed once
    on the array [nodes] and then updated in place by [calculateWidth]
    and [assignPositions]; here each pass rebuilds the tree, and the
    array is the list of the objects of the final tree in the order in
    which they were pushed, which is pre-order. *)

Module TreeLayout.

#[local] Set Warnings "-register-all".

(** The entries of [config] that the layout uses. *)
Definition nodeWidth : Z := 150.
Definition nodeHeight : Z := 50.
Definition horizontalGap : Z := 50.
Definition verticalGap : Z := 80.

(** The parsed input: an entry has a label and may have children.
    [traverse] treats an entry without [children] like one with an empty
    array, so both are an empty list here. *)
Inductive menu := Menu (label : string) (children : list menu).

(** The fields [traverse] gives an object. *)
Record node := mkNode {
  id : Z;
  parentId : option Z;   (* None is null *)
  label : string;
  depth : Z;
  x : Z;
  y : Z
}.

(** The objects after [traverse], and after [calculateWidth] has added
    the field [width]. *)
Inductive tree0 := T0 (n : node) (children : list tree0).
Inductive tree1 := T1 (n : node) (width : Z) (children : list tree1).

Definition setX (v : Z) (n : node) : node :=
  mkNode (id n) (parentId n) (label n) (depth n) v (y n).

(** [children.forEach(child => ...)] with a state that each call reads
    and leaves behind. *)
Definition forEachState {A B S} (f : A → S → B * S)
    : list A → S → list B * S :=
  fix each (l : list A) (s : S) : list B * S :=
    match l with
    | [] => ([], s)
    | a :: l' =>
        let '(b, s) := f a s in
        let '(bs, s) := each l' s in
        (b :: bs, s)
    end.

(** [traverse(node, depth, parentId)]; the state is [idCounter].
    ([maxDepth] is written but never read and is left out.) *)
Fixpoint traverse (m : menu) (depth : Z) (parentId : option Z)
    (idCounter : Z) : tree0 * Z :=
  match m with
  | Menu lbl children =>
      let id := idCounter in
      let idCounter := idCounter + 1 in
      let currentNode :=
        mkNode id parentId lbl depth 0 (depth * (nodeHeight + verticalGap)) in
      let '(childNodes, idCounter) :=
        forEachState (λ child, traverse child (depth + 1) (Some id))
                     children idCounter in
      (T0 currentNode childNodes, idCounter)
  end.

(** The loop of [calculateWidth] over the children:
    [childrenWidth += calculateWidth(child);
     if (index < node.children.length - 1) childrenWidth += horizontalGap]. *)
Definition addWidths (f : tree0 → tree1 * Z) (len : Z)
    : list tree0 → Z → Z → list tree1 * Z :=
  fix each (l : list tree0) (index childrenWidth : Z) : list tree1 * Z :=
    match l with
    | [] => ([], childrenWidth)
    | child :: l' =>
        let '(child', w) := f child in
        let childrenWidth := childrenWidth + w in
        let childrenWidth :=
          if index <? len - 1 then childrenWidth + horizontalGap
          else childrenWidth in
        let '(rest, childrenWidth) := each l' (index + 1) childrenWidth in
        (child' :: rest, childrenWidth)
    end.

(** [calculateWidth(node)]: the object with its width, and the value
    returned. *)
Fixpoint calculateWidth (t : tree0) : tree1 * Z :=
  match t with
  | T0 n children =>
      if Z.of_nat (length children) =? 0 then (T1 n nodeWidth [], nodeWidth)
      else
        let '(children', childrenWidth) :=
          addWidths calculateWidth (Z.of_nat (length children)) children 0 0 in
        (T1 n childrenWidth children', Z.max nodeWidth childrenWidth)
  end.

Definition widthOf (t : tree1) : Z :=
  match t with T1 _ w _ => w end.

(** The loop of [assignPositions] over the children:
    [assignPositions(child, currentX);
     currentX += child.width + horizontalGap]. *)
Definition placeEach (f : tree1 → Z → tree1) : list tree1 → Z → list tree1 :=
  fix each (l : list tree1) (currentX : Z) : list tree1 :=
    match l with
    | [] => []
    | child :: l' =>
        let child' := f child currentX in
        child' :: each l' (currentX + widthOf child' + horizontalGap)
    end.

(** [assignPositions(node, startX)].  The two divisions by 2 are exact:
    every width is even (see [width_even]) and [nodeWidth] is 150. *)
Fixpoint assignPositions (t : tree1) (startX : Z) : tree1 :=
  match t with
  | T1 n w children =>
      T1 (setX (startX + w / 2 - nodeWidth / 2) n) w
         (placeEach assignPositions children startX)
  end.

(** The array [nodes]: every object with its width, in pre-order. *)
Fixpoint nodesOf (t : tree1) : list (node * Z) :=
  match t with
  | T1 n w children => (n, w) :: (children ≫= nodesOf)
  end.

(** [Math.max(...values)]; [None] is the -Infinity of an empty list. *)
Definition Math_max (values : list Z) : option Z :=
  match values with
  | [] => None
  | v :: rest => Some (foldl Z.max v rest)
  end.

Record layout := mkLayout {
  layoutWidth : option Z;
  layoutHeight : option Z;
  layoutNodes : list (node * Z)
}.

Definition calculateLayout (rootData : menu) : layout :=
  let '(rootNode, _) := traverse rootData 0 None 0 in
  let '(rootNode, _) := calculateWidth rootNode in
  let rootNode := assignPositions rootNode 0 in
  let nodes := nodesOf rootNode in
  let maxX := Math_max ((λ n, x n.1 + nodeWidth) <$> nodes) in
  let maxY := Math_max ((λ n, y n.1 + nodeHeight) <$> nodes) in
  mkLayout maxX maxY nodes.

(** The elbow connector [drawConnections] draws from a parent to a
    child: [M startX startY V midY H endX V endY]. *)
Record connector := mkConnector {
  startX : Z; startY : Z; midY : Z; endX : Z; endY : Z
}.

(** [drawConnections(svg, nodes)]: the connectors in the order in which
    they are appended.  [nodes.find] gives [undefined] when no object has
    the id, and reading [parent.x] then throws: that is [None]. *)
Fixpoint connectorsFrom (nodes todo : list (node * Z)) : option (list connector) :=
  match todo with
  | [] => Some []
  | n :: todo' =>
      match parentId n.1 with
      | None => connectorsFrom nodes todo'
      | Some pid =>
          match List.find (λ p, id p.1 =? pid) nodes with
          | None => None
          | Some parent =>
              let startX := x parent.1 + nodeWidth / 2 in
              let startY := y parent.1 + nodeHeight in
              let endX := x n.1 + nodeWidth / 2 in
              let endY := y n.1 in
              let midY := startY + (endY - startY) / 2 in
              cs ← connectorsFrom nodes todo';
              Some (mkConnector startX startY midY endX endY :: cs)
          end
      end
  end.

Definition drawConnections (nodes : list (node * Z)) : option (list connector) :=
  connectorsFrom nodes nodes.

(** ** The layout in one pass *)

(** The number of entries of a menu. *)
Fixpoint size (m : menu) : nat :=
  match m with
  | Menu _ children => S (sum_list_with size children)
  end.

(** The horizontal room an entry takes: a node's width for a leaf, the
    room of the children and the gaps between them otherwise. *)
Fixpoint span (m : menu) : Z :=
  match m with
  | Menu _ children =>
      match children with
      | [] => nodeWidth
      | _ => foldr (λ c acc, span c + acc) 0 children
             + horizontalGap * (Z.of_nat (length children) - 1)
      end
  end.

(** The pre-order list of the objects of a subtree whose root gets the
    id [i] and whose room starts at [left]. *)
Definition placeAll (f : menu → Z → option Z → Z → Z → list (node * Z))
    (d : Z) (pid : option Z) : list menu → Z → Z → list (node * Z) :=
  fix each (l : list menu) (i left : Z) : list (node * Z) :=
    match l with
    | [] => []
    | c :: l' =>
        f c d pid i left
        ++ each l' (i + Z.of_nat (size c)) (left + span c + horizontalGap)
    end.

Fixpoint place (m : menu) (d : Z) (pid : option Z) (i left : Z)
    : list (node * Z) :=
  match m with
  | Menu lbl children =>
      (mkNode i pid lbl d (left + span m / 2 - 75) (d * 130), span m)
      :: placeAll place (d + 1) (Some i) children (i + 1) left
  end.

Definition spans (cs : list menu) : Z := foldr (λ c acc, span c + acc) 0 cs.
Definition sizes (cs : list menu) : nat := sum_list_with size cs.

(** The room of a row of siblings: their spans and the gaps between. *)
Definition room (cs : list menu) : Z :=
  spans cs + horizontalGap * Z.max 0 (Z.of_nat (length cs) - 1).

(** The height of a menu: the number of levels below the root. *)
Fixpoint levels (m : menu) : Z :=
  match m with
  | Menu _ children => foldr (λ c acc, Z.max (levels c + 1) acc) 0 children
  end.

(** What the passes do to a subtree. *)
Definition passes_ok (m : menu) : Prop :=
  ∀ d pid i, ∃ t0 t1,
    traverse m d pid i = (t0, i + Z.of_nat (size m))
    ∧ calculateWidth t0 = (t1, span m)
    ∧ widthOf t1 = span m
    ∧ ∀ left, nodesOf (assignPositions t1 left) = place m d pid i left.

Definition levelsAll (cs : list menu) : Z :=
  foldr (λ c acc, Z.max (levels c + 1) acc) 0 cs.

(** Where the objects of a subtree lie. *)
Definition within (i size left room d deep : Z) (n : node * Z) : Prop :=
  i ≤ id n.1 < i + size
  ∧ left ≤ x n.1 ∧ x n.1 + nodeWidth ≤ left + room
  ∧ d ≤ depth n.1 ≤ d + deep
  ∧ y n.1 = 130 * depth n.1
  ∧ nodeWidth ≤ n.2 ∧ n.2 `mod` 2 = 0.

(** An object is either one of the roots of the list, or the child of an
    earlier object of the list. *)
Definition has_parent (l : list (node * Z)) (pid : option Z) (d : Z)
    (n : node * Z) : Prop :=
  (parentId n.1 = pid ∧ depth n.1 = d)
  ∨ ∃ p, p ∈ l ∧ parentId n.1 = Some (id p.1)
         ∧ depth n.1 = depth p.1 + 1 ∧ id p.1 < id n.1.

(** Objects of one level leave a gap between them, from left to right
    in the order of their ids. *)
Definition separated (l : list (node * Z)) : Prop :=
  ∀ n1 n2, n1 ∈ l → n2 ∈ l → id n1.1 < id n2.1 → depth n1.1 = depth n2.1 →
    x n1.1 + nodeWidth + horizontalGap ≤ x n2.1.

(** A parent stands between two of its children (which may be the
    same one): one not to its right and one not to its left. *)
Definition flanked (l : list (node * Z)) : Prop :=
  ∀ p c, p ∈ l → c ∈ l → parentId c.1 = Some (id p.1) →
    ∃ c1 c2, c1 ∈ l ∧ c2 ∈ l
      ∧ parentId c1.1 = Some (id p.1) ∧ parentId c2.1 = Some (id p.1)
      ∧ x c1.1 ≤ x p.1 ≤ x c2.1.

(** ** Sample menus *)

Definition leaf (s : string) : menu := Menu s [].

(** A root with three entries; the first has two entries, the second
    one. *)
Definition sampleMenu : menu :=
  Menu "Home"
    [ Menu "Products" [leaf "Phones"; leaf "Laptops"];
      Menu "About" [leaf "Team"];
      leaf "Contact" ].

End TreeLayout.

(** * The reaction-time test: definitions

    The state of [script.js] (round, reaction times, start time, timer
    id, active flag), the parts of the page it writes, the browser's
    pending timers and the leaderboard in [localStorage].  The clock
    ([Date.now()]) and the date string are inputs of the handlers that
    read them.  The random delay of the timer and the random position of
    the target do not reach the state modelled here and are left out, as
    is the HTML that [renderLeaderboard] builds. *)

Module ReactionTest.

Definition MAX_ROUNDS : Z := 10.

(** An entry of the leaderboard: [{ name, score, date }]. *)
Record entry := mkEntry { name : string; score : Z; date : string }.

Inductive screen := startScreen | gameScreen | resultScreen | gameOverScreen.

(** The values [style.display] takes; [displayUnset] is the value before
    the script has written it. *)
Inductive display := displayUnset | displayNone | displayBlock | displayFlex.

Record State := mkState {
  currentRound : Z;
  reactionTimes : list Z;
  startTime : Z;
  timerId : option nat;          (* None is null *)
  gameActive : bool;
  (* the browser's timers: the ids that are set and have neither fired
     nor been cleared, and the id the next [setTimeout] returns *)
  pending : list nat;
  nextTimer : nat;
  (* the page *)
  active : list screen;          (* the screens with the class 'active' *)
  targetDisplay : display;       (* targetBtn.style.display *)
  roundCounter : Z;              (* the number shown by roundCounter *)
  finalScore : Z;                (* the number before "ms" in finalScoreEl *)
  averageScore : Z;              (* the number before "ms" in avgScoreEl *)
  saveScoreDisplay : display;    (* saveScoreSection.style.display *)
  playerName : string;           (* playerNameInput.value *)
  (* localStorage.getItem('reactionLeaderboard'), parsed; None is null *)
  leaderboard : option (list entry)
}.

(** ** The leaderboard *)

(** [history.sort((a, b) => a.score - b.score)].  The sort of an array
    is stable, so with this comparator its result is the one ordering of
    the entries by score in which entries of equal score keep their
    order; insertion from the right computes it. *)
Fixpoint insertByScore (e : entry) (l : list entry) : list entry :=
  match l with
  | [] => [e]
  | a :: l' => if score e <=? score a then e :: l
               else a :: insertByScore e l'
  end.

Definition sortByScore (l : list entry) : list entry :=
  foldr insertByScore [] l.

(** [saveScore(name, score)] on the stored value; the date is
    [new Date().toLocaleDateString()]. *)
Definition saveScore (name : string) (score : Z) (date : string)
    (stored : option (list entry)) : option (list entry) :=
  let history := default [] stored in
  let newEntry := mkEntry name score date in
  let history := history ++ [newEntry] in
  let history := sortByScore history in
  let history := if (5 <? Z.of_nat (length history)) then take 5 history
                 else history in
  Some history.

(** ** The handlers *)

Definition showScreen (s : screen) (g : State) : State :=
  mkState (currentRound g) (reactionTimes g) (startTime g) (timerId g)
          (gameActive g) (pending g) (nextTimer g)
          [s] (targetDisplay g) (roundCounter g) (finalScore g)
          (averageScore g) (saveScoreDisplay g) (playerName g) (leaderboard g).

Definition updateHUD (g : State) : State :=
  mkState (currentRound g) (reactionTimes g) (startTime g) (timerId g)
          (gameActive g) (pending g) (nextTimer g)
          (active g) (targetDisplay g) (currentRound g) (finalScore g)
          (averageScore g) (saveScoreDisplay g) (playerName g) (leaderboard g).

(** [reactionTimes.reduce((a, b) => a + b, 0)] *)
Definition totalOf (times : list Z) : Z := foldl Z.add 0 times.

Definition finishGame (g : State) : State :=
  let totalTime := totalOf (reactionTimes g) in
  let avgTime := totalTime / MAX_ROUNDS in   (* Math.floor(totalTime / MAX_ROUNDS) *)
  showScreen resultScreen
    (mkState (currentRound g) (reactionTimes g) (startTime g) (timerId g)
             (gameActive g) (pending g) (nextTimer g)
             (active g) (targetDisplay g) (roundCounter g) totalTime
             avgTime displayFlex "" (leaderboard g)).

Definition nextRound (g : State) : State :=
  if currentRound g >=? MAX_ROUNDS then finishGame g
  else
    let g := updateHUD
      (mkState (currentRound g + 1) (reactionTimes g) (startTime g) (timerId g)
               (gameActive g) (pending g) (nextTimer g)
               (active g) (targetDisplay g) (roundCounter g) (finalScore g)
               (averageScore g) (saveScoreDisplay g) (playerName g)
               (leaderboard g)) in
    (* gameActive = false; display = 'none'; timerId = setTimeout(...) *)
    mkState (currentRound g) (reactionTimes g) (startTime g)
            (Some (nextTimer g))
            false (pending g ++ [nextTimer g]) (S (nextTimer g))
            (active g) displayNone (roundCounter g) (finalScore g)
            (averageScore g) (saveScoreDisplay g) (playerName g) (leaderboard g).

Definition startGame (g : State) : State :=
  let g := mkState 0 [] (startTime g) (timerId g)
                   (gameActive g) (pending g) (nextTimer g)
                   (active g) (targetDisplay g) (roundCounter g) (finalScore g)
                   (averageScore g) (saveScoreDisplay g) (playerName g)
                   (leaderboard g) in
  nextRound (updateHUD (showScreen gameScreen g)).

(** [showTarget()], with the value of [Date.now()]. *)
Definition showTarget (now : Z) (g : State) : State :=
  mkState (currentRound g) (reactionTimes g) now (timerId g)
          true (pending g) (nextTimer g)
          (active g) displayBlock (roundCounter g) (finalScore g)
          (averageScore g) (saveScoreDisplay g) (playerName g) (leaderboard g).

(** [clearTimeout(id)]: nothing happens for null or an id that is not
    pending. *)
Definition clearTimeout (id : option nat) (l : list nat) : list nat :=
  match id with
  | None => l
  | Some i => filter (λ j, j ≠ i) l
  end.

Definition gameOver (g : State) : State :=
  showScreen gameOverScreen
    (mkState (currentRound g) (reactionTimes g) (startTime g) (timerId g)
             false (clearTimeout (timerId g) (pending g)) (nextTimer g)
             (active g) (targetDisplay g) (roundCounter g) (finalScore g)
             (averageScore g) (saveScoreDisplay g) (playerName g)
             (leaderboard g)).

(** [handleInput(e)]: [onTarget] is [e.target.id === 'target-btn'], [now]
    the value of [Date.now()]. *)
Definition handleInput (onTarget : bool) (now : Z) (g : State) : State :=
  if onTarget then
    if negb (gameActive g) then g
    else
      let endTime := now in
      let reactionTime := endTime - startTime g in
      nextRound
        (mkState (currentRound g) (reactionTimes g ++ [reactionTime])
                 (startTime g) (timerId g)
                 false (pending g) (nextTimer g)
                 (active g) displayNone (roundCounter g) (finalScore g)
                 (averageScore g) (saveScoreDisplay g) (playerName g)
                 (leaderboard g))
  else gameOver g.

(** [handleSaveScore()]; [trimmed] is [playerNameInput.value.trim()] and
    [today] the date string. *)
Definition handleSaveScore (trimmed today : string) (g : State) : State :=
  let name := if bool_decide (trimmed = "") then "ANONYMOUS" else trimmed in
  let totalTime := totalOf (reactionTimes g) in
  mkState (currentRound g) (reactionTimes g) (startTime g) (timerId g)
          (gameActive g) (pending g) (nextTimer g)
          (active g) (targetDisplay g) (roundCounter g) (finalScore g)
          (averageScore g) displayNone (playerName g)
          (saveScore name totalTime today (leaderboard g)).

Definition resetGame (g : State) : State := showScreen startScreen g.

(** ** Events *)

(** What can happen to the page: a click on the start button, a timer
    that fires, a mouse button pressed in the game area, a click on save
    or on one of the retry buttons. *)
Inductive event :=
  | Start
  | TimerFires (id : nat) (now : Z)
  | MouseDown (onTarget : bool) (now : Z)
  | Save (trimmed today : string)
  | Retry.

(** A timer fires only while it is pending, and then no more. *)
Definition step (g : State) (e : event) : State :=
  match e with
  | Start => startGame g
  | TimerFires id now =>
      if bool_decide (id ∈ pending g)
      then showTarget now
             (mkState (currentRound g) (reactionTimes g) (startTime g)
                      (timerId g) (gameActive g)
                      (filter (λ j, j ≠ id) (pending g)) (nextTimer g)
                      (active g) (targetDisplay g) (roundCounter g)
                      (finalScore g) (averageScore g) (saveScoreDisplay g)
                      (playerName g) (leaderboard g))
      else g
  | MouseDown onTarget now => handleInput onTarget now g
  | Save trimmed today => handleSaveScore trimmed today g
  | Retry => resetGame g
  end.

Definition run (g : State) (es : list event) : State := foldl step g es.

(** The page when the script has been loaded: the variables as they are
    declared, no timer set, and a page and a storage as they happen to
    be. *)
Definition loaded (next : nat) (scr : list screen) (td : display)
    (rc fs av : Z) (sd : display) (pn : string)
    (lb : option (list entry)) : State :=
  mkState 0 [] 0 None false [] next scr td rc fs av sd pn lb.

Inductive reachable : State → Prop :=
  | reach_loaded next scr td rc fs av sd pn lb :
      reachable (loaded next scr td rc fs av sd pn lb)
  | reach_step g e : reachable g → reachable (step g e).

(** One round of a game played by the rules: the timer that is set
    fires at [shown], the target is hit at [hit]. *)
Definition playRound (g : State) (r : Z * Z) : State :=
  match timerId g with
  | Some id => step (step g (TimerFires id r.1)) (MouseDown true r.2)
  | None => g
  end.

Definition playRounds (g : State) (rs : list (Z * Z)) : State :=
  foldl playRound g rs.

(** ** Ordering of the leaderboard *)

Fixpoint sortedByScore (l : list entry) : bool :=
  match l with
  | [] => true
  | a :: l' =>
      match l' with
      | [] => true
      | b :: _ => (score a <=? score b) && sortedByScore l'
      end
  end.

(** The order [sortByScore] establishes. *)
Definition byScore (a b : entry) : Prop := score a ≤ score b.

(** The script waits for the timer [id], the only one that is set. *)
Definition waiting (g : State) (id : nat) : Prop :=
  gameActive g = false ∧ timerId g = Some id ∧ pending g = [id].

(** The events of play: timers and the mouse in the game area. *)
Definition playEvent (e : event) : bool :=
  match e with
  | TimerFires _ _ | MouseDown _ _ => true
  | _ => false
  end.

(** ** Samples *)

Definition freshPage : State :=
  loaded 1 [startScreen] displayUnset 0 0 0 displayUnset "" None.

Definition tenRounds : list (Z * Z) :=
  [(1000, 1250); (3000, 3310); (5000, 5205); (7000, 7280); (9000, 9190);
   (11000, 11330); (13000, 13240); (15000, 15275); (17000, 17215);
   (19000, 19305)].

Definition sampleBoard : list entry :=
  [ mkEntry "ANN" 2100 "1/1/2025"; mkEntry "BOB" 2400 "1/2/2025";
    mkEntry "CAT" 2600 "1/3/2025"; mkEntry "DAN" 2600 "1/4/2025";
    mkEntry "EVE" 3000 "1/5/2025" ].

End ReactionTest.

(** * Omok (five-in-a-row) board engine

    A shallow embedding of the board engine of the omok demo: the module
    level state ([board], [currentPlayer], [gameActive]) together with the
    three DOM texts the engine writes, and the functions [initBoardState],
    [handleClick], [placeStone], [checkWin], [isValid], [endGame],
    [resetGame] and [updateTurnUI].

    Numbers are modelled as [Z] (every number the engine handles is a small
    integer), the board as a list of rows read with stdpp's list lookup and
    written with [alter]/insert.  Canvas drawing ([drawBoard], [drawStone])
    and the CSS class of the turn indicator only render the state and never
    feed back into it; they are left out. *)

Module Omok.

(** ** Constants and the state *)

Definition BOARD_SIZE : Z := 15.

(** Cell values, as the source's comment gives them:
    0: Empty, 1: Black, 2: White. *)
Definition Empty : Z := 0.
Definition Black : Z := 1.
Definition White : Z := 2.

Record Game := mkGame {
  board : list (list Z);
  currentPlayer : Z;
  gameActive : bool;
  turnText : string;      (* turnText.innerText *)
  winnerText : string;    (* winnerText.innerText *)
  modalHidden : bool      (* 'hidden' in modal.classList *)
}.

Definition withBoard (b : list (list Z)) (g : Game) : Game :=
  mkGame b (currentPlayer g) (gameActive g)
         (turnText g) (winnerText g) (modalHidden g).

Definition withPlayer (p : Z) (g : Game) : Game :=
  mkGame (board g) p (gameActive g)
         (turnText g) (winnerText g) (modalHidden g).

Definition withModalHidden (h : bool) (g : Game) : Game :=
  mkGame (board g) (currentPlayer g) (gameActive g)
         (turnText g) (winnerText g) h.

(** The state when the script is loaded, before [init] runs:
    [let board = []; let currentPlayer = 1; let gameActive = true].  The
    texts and the modal come from the page and are parameters. *)
Definition loaded (tt wt : string) (mh : bool) : Game :=
  mkGame [] 1 true tt wt mh.

(** ** Reading and writing the board *)

(** [board[r][c]].  A negative index names no element.  [None] stands for
    JavaScript's [undefined]; on a board that lacks row [r] JavaScript
    throws instead, which cannot happen on a 15x15 board when the read is
    guarded by a bounds check, as every read of the engine is. *)
Definition readCell (b : list (list Z)) (r c : Z) : option Z :=
  if (r <? 0) || (c <? 0) then None
  else b !! Z.to_nat r ≫= (λ row, row !! Z.to_nat c).

(** [board[r][c] === player] *)
Definition cellIs (b : list (list Z)) (r c player : Z) : bool :=
  match readCell b r c with
  | Some v => v =? player
  | None => false
  end.

(** [board[r][c] = v], for an index inside the board (the only way the
    engine writes: [placeStone] is called after the bounds check). *)
Definition writeCell (b : list (list Z)) (r c v : Z) : list (list Z) :=
  alter (λ row, <[Z.to_nat c := v]> row) (Z.to_nat r) b.

(** Every board the engine builds is a 15x15 grid. *)
Definition wf_board (b : list (list Z)) : bool :=
  (length b =? Z.to_nat BOARD_SIZE)%nat
  && forallb (λ row, (length row =? Z.to_nat BOARD_SIZE)%nat) b.

(** ** The engine *)

Definition isValid (r c : Z) : bool :=
  (r >=? 0) && (r <? BOARD_SIZE) && (c >=? 0) && (c <? BOARD_SIZE).

(** One of the two inner loops of [checkWin]:
    [for (let i = 1; i < 5; i++) { if (isValid(nr, nc) && board[nr][nc]
    === player) count++; else break; }], where [pos i] is [(nr, nc)] and
    [n] is the number of iterations still to run. *)
Fixpoint countLoop (b : list (list Z)) (player : Z) (pos : Z → Z * Z)
    (n : nat) (i : Z) (count : Z) : Z :=
  match n with
  | O => count
  | S n' =>
      let '(nr, nc) := pos i in
      if isValid nr nc && cellIs b nr nc player
      then countLoop b player pos n' (i + 1) (count + 1)
      else count
  end.

Definition forward (r c dr dc : Z) (i : Z) : Z * Z := (r + dr * i, c + dc * i).
Definition backward (r c dr dc : Z) (i : Z) : Z * Z := (r - dr * i, c - dc * i).

(** The body of the loop over the directions, up to the test. *)
Definition countDirection (b : list (list Z)) (r c player dr dc : Z) : Z :=
  let count := 1 in
  let count := countLoop b player (forward r c dr dc) 4 1 count in
  let count := countLoop b player (backward r c dr dc) 4 1 count in
  count.

Definition directions : list (Z * Z) :=
  [ (0, 1);    (* Horizontal *)
    (1, 0);    (* Vertical *)
    (1, 1);    (* Diagonal *)
    (1, -1) ]. (* Anti-Diagonal *)

Fixpoint checkDirections (b : list (list Z)) (r c player : Z)
    (ds : list (Z * Z)) : bool :=
  match ds with
  | [] => false
  | (dr, dc) :: ds' =>
      if countDirection b r c player dr dc >=? 5 then true
      else checkDirections b r c player ds'
  end.

Definition checkWin (b : list (list Z)) (r c player : Z) : bool :=
  checkDirections b r c player directions.

Definition updateTurnUI (g : Game) : Game :=
  mkGame (board g) (currentPlayer g) (gameActive g)
         (if currentPlayer g =? 1 then "흑돌(Black) 차례" else "백돌(White) 차례")
         (winnerText g) (modalHidden g).

Definition initBoardState (g : Game) : Game :=
  updateTurnUI
    (mkGame (replicate (Z.to_nat BOARD_SIZE) (replicate (Z.to_nat BOARD_SIZE) 0))
            1 true (turnText g) (winnerText g) (modalHidden g)).

Definition endGame (winner : Z) (g : Game) : Game :=
  mkGame (board g) (currentPlayer g) false (turnText g)
         (if winner =? 1 then "흑돌(Black) 승리!" else "백돌(White) 승리!")
         false.

Definition placeStone (r c : Z) (g : Game) : Game :=
  let g := withBoard (writeCell (board g) r c (currentPlayer g)) g in
  if checkWin (board g) r c (currentPlayer g) then endGame (currentPlayer g) g
  else
    let g := withPlayer (if currentPlayer g =? 1 then 2 else 1) g in
    updateTurnUI g.

(** How a call ends: with a value, or with an exception. *)
Inductive jsvalue := undefined | jsbool (v : bool).
Inductive completion := Return (v : jsvalue) | Throw (what : string).

(** [handleClick], from the point where the click has been converted to
    the indices [r] and [c] (the conversion rounds pixel coordinates and
    does not touch the state). *)
Definition handleClick (r c : Z) (g : Game) : completion * Game :=
  if negb (gameActive g) then (Return undefined, g)
  else if (r <? 0) || (r >=? BOARD_SIZE) || (c <? 0) || (c >=? BOARD_SIZE)
  then (Return undefined, g)
  else if negb (bool_decide (readCell (board g) r c = Some 0))
  then (Return undefined, g)
  else (Return undefined, placeStone r c g).

Definition resetGame (g : Game) : Game :=
  initBoardState (withModalHidden true g).

(** [init]: the state once the page has loaded. *)
Definition init (g : Game) : Game := initBoardState g.

(** ** Runs of the engine *)

Inductive op := Click (r c : Z) | Reset.

Definition click (r c : Z) (g : Game) : Game := snd (handleClick r c g).

Definition step (g : Game) (o : op) : Game :=
  match o with
  | Click r c => click r c g
  | Reset => resetGame g
  end.

Definition run (g : Game) (os : list op) : Game := foldl step g os.

(** A game without reset is a list of clicks. *)
Definition clicks (g : Game) (ps : list (Z * Z)) : Game :=
  foldl (λ g p, click p.1 p.2 g) g ps.

(** The states the page can be in: after [init], then any clicks and
    resets. *)
Inductive reachable : Game → Prop :=
  | reach_init tt wt mh : reachable (init (loaded tt wt mh))
  | reach_step g o : reachable g → reachable (step g o).

(** The engine accepts a click when the game is on, the indices are on
    the board and the cell is empty. *)
Definition accepted (g : Game) (r c : Z) : Prop :=
  gameActive g = true ∧ 0 ≤ r < BOARD_SIZE ∧ 0 ≤ c < BOARD_SIZE
  ∧ readCell (board g) r c = Some Empty.

(** It is always Black's or White's turn. *)
Definition players_turn (g : Game) : Prop :=
  currentPlayer g = Black ∨ currentPlayer g = White.

(** A rejection that the caller can tell from an accepted move: an
    exception, or a value other than [undefined]. *)
Definition signalsInvalidMove (k : completion) : bool :=
  match k with
  | Return undefined => false
  | Return _ => true
  | Throw _ => true
  end.

(** ** The win condition in the words of the specification *)

(** A cell of the board that holds [player]'s mark. *)
Definition marked (b : list (list Z)) (player : Z) (p : Z * Z) : bool :=
  isValid p.1 p.2 && cellIs b p.1 p.2 player.

(** The number of consecutive cells [pos i], [pos (i+1)], ... that hold
    the player's mark, looking at no more than [n] cells. *)
Fixpoint consecutive (b : list (list Z)) (player : Z) (pos : Z → Z * Z)
    (n : nat) (i : Z) : nat :=
  match n with
  | O => O
  | S n' => if marked b player (pos i)
            then S (consecutive b player pos n' (i + 1))
            else O
  end.

(** [k] is the length of the run of marks that extends from the origin
    along [pos]: the cells 1..k are marked and cell k+1 is not. *)
Definition runOf (b : list (list Z)) (player : Z) (pos : Z → Z * Z)
    (k : nat) : Prop :=
  (∀ j, 1 ≤ j ≤ Z.of_nat k → marked b player (pos j) = true)
  ∧ marked b player (pos (Z.of_nat k + 1)) = false.

(** The count along one axis: the stone at (r, c) itself plus the runs
    that extend from it in both directions.  No run on a board of
    [BOARD_SIZE] lines is longer than [BOARD_SIZE] cells. *)
Definition lineCount (b : list (list Z)) (r c player : Z) (d : Z * Z) : Z :=
  1 + Z.of_nat (consecutive b player (forward r c d.1 d.2) (Z.to_nat BOARD_SIZE) 1)
    + Z.of_nat (consecutive b player (backward r c d.1 d.2) (Z.to_nat BOARD_SIZE) 1).

Definition winBySpec (b : list (list Z)) (r c player : Z) : bool :=
  existsb (λ d, lineCount b r c player d >=? 5) directions.

(** Five marks of [player] in a row, from (r0, c0) in direction [d]. *)
Definition fiveFrom (b : list (list Z)) (player : Z) (r0 c0 : Z) (d : Z * Z) : bool :=
  forallb (λ i, marked b player (r0 + d.1 * i, c0 + d.2 * i)) [0; 1; 2; 3; 4].

Definition indices : list Z := Z.of_nat <$> seq 0 (Z.to_nat BOARD_SIZE).

(** The scan of the whole board: some cell starts five in a row along one
    of the four axes.  (A line of six or more contains one of five.) *)
Definition boardHasLine (b : list (list Z)) (player : Z) : bool :=
  existsb (λ r0, existsb (λ c0, existsb (fiveFrom b player r0 c0) directions)
                         indices) indices.

(** ** Sample games *)

Definition newGame : Game := init (loaded "" "" true).

(** Black plays (7,3) ... (7,6), White answers on row 0. *)
Definition fourInRow : Game :=
  clicks newGame [(7,3); (0,0); (7,4); (0,1); (7,5); (0,2); (7,6); (0,3)].

(** Black completes five on row 7. *)
Definition blackWon : Game := click 7 7 fourInRow.

(** Black holds (7,2)..(7,4) and (7,6)..(7,7); (7,5) joins them into six. *)
Definition splitRow : Game :=
  clicks newGame [(7,2); (0,0); (7,3); (0,1); (7,4); (0,2); (7,6); (0,3);
                  (7,7); (0,5)].

(** ** Drawing the stones *)

Definition GRID_SIZE : Z := 600.

(** [GRID_SIZE / BOARD_SIZE] is 40 and [CELL_SIZE / 2] is 20; both
    divisions are exact. *)
Definition CELL_SIZE : Z := GRID_SIZE / BOARD_SIZE.
Definition PADDING : Z := CELL_SIZE / 2.

(** What [drawStone(r, c, player)] puts on the canvas: the centre of the
    disc and which of the two gradients fills it (the dark one exactly
    when [player === 1]). *)
Record stone := mkStone { centreX : Z; centreY : Z; dark : bool }.

Definition drawStone (r c player : Z) : stone :=
  mkStone (PADDING + c * CELL_SIZE) (PADDING + r * CELL_SIZE) (player =? 1).

(** The last loop of [drawBoard]: the calls of [drawStone], in order.
    [for r ... for c ... if (board[r][c] !== 0) drawStone(r, c, board[r][c])].
    As for [readCell], the board is taken to be a 15x15 grid. *)
Definition drawStones (b : list (list Z)) : list stone :=
  r ← indices; c ← indices;
  match readCell b r c with
  | Some v => if negb (v =? 0) then [drawStone r c v] else []
  | None => []
  end.

(** ** Quantities the invariants speak about *)

(** The other player, as [placeStone] computes it:
    [currentPlayer === 1 ? 2 : 1]. *)
Definition opponent (p : Z) : Z := if p =? 1 then 2 else 1.

(** The number of cells that hold [p]. *)
Definition countMarks (b : list (list Z)) (p : Z) : nat :=
  sum_list_with (λ row, count_occ Z.eq_dec row p) b.

(** Every cell of the board holds one of the three cell values. *)
Definition cells_ok (b : list (list Z)) : Prop :=
  ∀ r c v, readCell b r c = Some v → v = Empty ∨ v = Black ∨ v = White.

(** No cell of the board is empty. *)
Definition boardFull (b : list (list Z)) : Prop :=
  ∀ r c, isValid r c = true → readCell b r c ≠ Some Empty.

(** The state of the lines, the modal and the winner text in terms of
    the active flag. *)
Definition lines_inv (g : Game) : Prop :=
  (gameActive g = true →
   boardHasLine (board g) Black = false ∧ boardHasLine (board g) White = false)
  ∧ (gameActive g = false →
     boardHasLine (board g) (currentPlayer g) = true
     ∧ boardHasLine (board g) (opponent (currentPlayer g)) = false
     ∧ modalHidden g = false
     ∧ winnerText g
       = if currentPlayer g =? 1 then "흑돌(Black) 승리!" else "백돌(White) 승리!").

(** Black moves first: the stones of the two players are level when it
    is Black's turn and Black is one ahead when it is White's turn; the
    winner, who keeps the turn, is the one who moved last. *)
Definition parity_inv (g : Game) : Prop :=
  countMarks (board g) Black
  = (countMarks (board g) White
     + match (currentPlayer g =? 1)%Z, gameActive g with
       | true, true => 0
       | true, false => 1
       | false, true => 1
       | false, false => 0
       end)%nat.

(** [boardFull], as a test. *)
Definition boardFullb (b : list (list Z)) : bool :=
  forallb (λ r, forallb (λ c, negb (cellIs b r c Empty)) indices) indices.

(** A game that fills the board: cell (r, c) belongs to Black when
    (c + 2r) mod 4 is 0 or 1 and to White otherwise, and the two players
    take their cells in turn, row by row. *)
Definition cellsOf (first : bool) : list (Z * Z) :=
  r ← indices; c ← indices;
  if bool_decide ((c + 2 * r) `mod` 4 < 2) then (if first then [(r, c)] else [])
  else (if first then [] else [(r, c)]).

Fixpoint interleave {A} (l k : list A) : list A :=
  match l, k with
  | x :: l', y :: k' => x :: y :: interleave l' k'
  | _, [] => l
  | [], _ => k
  end.

Definition fullGame : Game :=
  clicks newGame (interleave (cellsOf true) (cellsOf false)).

(** ** The win condition, stated apart from the code *)

(** The four lines through a cell. *)
Inductive axis := Horizontal | Vertical | Diagonal | AntiDiagonal.

(** One step along an axis, as (rows, columns). *)
Definition axisStep (a : axis) : Z * Z :=
  match a with
  | Horizontal => (0, 1)
  | Vertical => (1, 0)
  | Diagonal => (1, 1)
  | AntiDiagonal => (1, -1)
  end.

(** A run of exactly [k] marks of the player extends from (r, c) in the
    direction (dr, dc): the [k] cells next to (r, c) that way hold the
    player's mark and the cell after them does not (it holds something
    else or lies beyond the edge). *)
Definition marksFrom (b : list (list Z)) (player r c dr dc : Z) (k : nat)
    : Prop :=
  (∀ j, 1 ≤ j ≤ Z.of_nat k →
     readCell b (r + dr * j) (c + dc * j) = Some player)
  ∧ readCell b (r + dr * (Z.of_nat k + 1)) (c + dc * (Z.of_nat k + 1))
    ≠ Some player.

(** The five cells that start at (r0, c0) and follow the axis all hold
    the player's mark. *)
Definition fiveAlong (b : list (list Z)) (player : Z) (a : axis)
    (r0 c0 : Z) : Prop :=
  ∀ i, 0 ≤ i ≤ 4 →
    readCell b (r0 + (axisStep a).1 * i) (c0 + (axisStep a).2 * i)
    = Some player.

(** Somewhere on the board the player has five in a row. *)
Definition fiveInRow (b : list (list Z)) (player : Z) : Prop :=
  ∃ a r0 c0, fiveAlong b player a r0 c0.

(** [fiveInRow] as a test that looks at every cell of a 15x15 board and
    every axis. *)
Definition fiveInRowb (b : list (list Z)) (player : Z) : bool :=
  existsb (λ a,
    existsb (λ r0,
      existsb (λ c0,
        forallb (λ i,
          bool_decide
            (readCell b (r0 + (axisStep a).1 * i) (c0 + (axisStep a).2 * i)
             = Some player))
          [0; 1; 2; 3; 4])
        (seqZ 0 15))
      (seqZ 0 15))
    [Horizontal; Vertical; Diagonal; AntiDiagonal].

(** ** The board as an array of arrays *)

Section BoardLemmas.
Implicit Types (b : list (list Z)) (r c v : Z).

Lemma isValid_spec r c :
  isValid r c = true ↔ 0 ≤ r < BOARD_SIZE ∧ 0 ≤ c < BOARD_SIZE.
Proof.
  unfold isValid. rewrite !andb_true_iff, !Z.geb_le, !Z.ltb_lt. lia.
Qed.

Lemma readCell_Some b r c v :
  readCell b r c = Some v ↔
  0 ≤ r ∧ 0 ≤ c ∧
  ∃ row, b !! Z.to_nat r = Some row ∧ row !! Z.to_nat c = Some v.
Proof.
  unfold readCell.
  destruct (Z.ltb_spec r 0), (Z.ltb_spec c 0); simpl;
    try (split; [discriminate | lia]).
  destruct (b !! Z.to_nat r) as [row|]; simpl; split.
  - intros Hv. eauto.
  - by intros (_ & _ & row' & [= <-] & Hv).
  - discriminate.
  - by intros (_ & _ & row' & [=] & _).
Qed.

Lemma readCell_writeCell_eq b r c v :
  is_Some (readCell b r c) → readCell (writeCell b r c v) r c = Some v.
Proof.
  intros [w Hw]. apply readCell_Some in Hw as (Hr & Hc & row & Hrow & Hcol).
  apply readCell_Some. do 2 (split; [done|]).
  exists (<[Z.to_nat c := v]> row). split.
  - unfold writeCell. by rewrite list_lookup_alter_eq, Hrow.
  - apply list_lookup_insert_eq. by eapply lookup_lt_Some.
Qed.

Lemma readCell_writeCell_ne b r c v r' c' :
  0 ≤ r → 0 ≤ c → (r', c') ≠ (r, c) →
  readCell (writeCell b r c v) r' c' = readCell b r' c'.
Proof.
  intros Hr Hc Hne. unfold readCell, writeCell.
  destruct (Z.ltb_spec r' 0), (Z.ltb_spec c' 0); simpl; try done.
  destruct (decide (Z.to_nat r = Z.to_nat r')) as [Heq|Hrow].
  - rewrite <- Heq, list_lookup_alter_eq.
    destruct (b !! Z.to_nat r) as [row|]; simpl; [|done].
    apply list_lookup_insert_ne. intros Hcc.
    apply Hne. f_equal; lia.
  - by rewrite list_lookup_alter_ne.
Qed.

Lemma wf_board_spec b :
  wf_board b = true ↔
  length b = 15%nat ∧ ∀ i row, b !! i = Some row → length row = 15%nat.
Proof.
  unfold wf_board. rewrite andb_true_iff, Nat.eqb_eq, forallb_forall.
  change (Z.to_nat BOARD_SIZE) with 15%nat.
  split; intros [Hlen Hrows]; (split; [done|]).
  - intros i row Hi. apply Nat.eqb_eq, Hrows.
    apply list_elem_of_In, list_elem_of_lookup. eauto.
  - intros row Hin. apply Nat.eqb_eq.
    apply list_elem_of_In, list_elem_of_lookup in Hin as [i Hi]. eauto.
Qed.

Lemma wf_board_writeCell b r c v :
  wf_board b = true → wf_board (writeCell b r c v) = true.
Proof.
  rewrite !wf_board_spec. intros [Hlen Hrows]. unfold writeCell. split.
  - by rewrite length_alter.
  - intros i row. rewrite list_lookup_alter. case_decide as Hi.
    + destruct (b !! Z.to_nat r) as [row0|] eqn:Hrow; simpl; [|done].
      intros [= <-]. rewrite length_insert. eauto.
    + apply Hrows.
Qed.

Lemma wf_readCell b r c :
  wf_board b = true → isValid r c = true → is_Some (readCell b r c).
Proof.
  rewrite wf_board_spec, isValid_spec. unfold BOARD_SIZE.
  intros [Hlen Hrows] [Hr Hc].
  destruct (lookup_lt_is_Some_2 b (Z.to_nat r)) as [row Hrow]; [lia|].
  destruct (lookup_lt_is_Some_2 row (Z.to_nat c)) as [v Hv].
  { rewrite (Hrows _ _ Hrow). lia. }
  exists v. apply readCell_Some. do 2 (split; [lia|]). eauto.
Qed.

Lemma readCell_valid b r c v :
  wf_board b = true → readCell b r c = Some v → isValid r c = true.
Proof.
  rewrite wf_board_spec, isValid_spec, readCell_Some. unfold BOARD_SIZE.
  intros [Hlen Hrows] (Hr & Hc & row & Hrow & Hv).
  pose proof (lookup_lt_Some _ _ _ Hrow).
  pose proof (lookup_lt_Some _ _ _ Hv) as Hlt.
  rewrite (Hrows _ _ Hrow) in Hlt. lia.
Qed.

Lemma readCell_empty_board r c :
  isValid r c = true →
  readCell (replicate (Z.to_nat BOARD_SIZE) (replicate (Z.to_nat BOARD_SIZE) 0))
           r c = Some 0.
Proof.
  rewrite isValid_spec. unfold BOARD_SIZE. intros [Hr Hc].
  apply readCell_Some. do 2 (split; [lia|]).
  exists (replicate 15 0). split; apply lookup_replicate_2; lia.
Qed.

Lemma marked_writeCell_ne b player r c v p :
  0 ≤ r → 0 ≤ c → p ≠ (r, c) →
  marked (writeCell b r c v) player p = marked b player p.
Proof.
  intros Hr Hc Hne. unfold marked, cellIs. destruct p as [r' c']; simpl.
  by rewrite readCell_writeCell_ne.
Qed.

Lemma marked_spec b player p :
  marked b player p = true ↔
  isValid p.1 p.2 = true ∧ readCell b p.1 p.2 = Some player.
Proof.
  unfold marked, cellIs. rewrite andb_true_iff.
  destruct (readCell b p.1 p.2) as [v|].
  - rewrite Z.eqb_eq. split; intros [Hv Hp]; (split; [done | congruence]).
  - split; intros [_ Hp]; discriminate.
Qed.
End BoardLemmas.

(** ** The counting loops *)

Section Counting.
Variables (b : list (list Z)) (player : Z) (pos : Z → Z * Z).

(** The loop adds to [count] the number of marked cells it walks over. *)
Lemma countLoop_consecutive n i count :
  countLoop b player pos n i count
  = count + Z.of_nat (consecutive b player pos n i).
Proof.
  revert i count. induction n as [|n IH]; intros i count; simpl.
  - lia.
  - unfold marked. destruct (pos i) as [nr nc]; simpl.
    destruct (isValid nr nc && cellIs b nr nc player); [|lia].
    rewrite IH. lia.
Qed.

Lemma consecutive_le n i : (consecutive b player pos n i ≤ n)%nat.
Proof.
  revert i. induction n as [|n IH]; intros i; simpl; [lia|].
  destruct (marked b player (pos i)); [|lia]. specialize (IH (i + 1)). lia.
Qed.

Lemma consecutive_marked n i j :
  0 ≤ j < Z.of_nat (consecutive b player pos n i) →
  marked b player (pos (i + j)) = true.
Proof.
  revert i j. induction n as [|n IH]; intros i j; simpl; [lia|].
  destruct (marked b player (pos i)) eqn:Hi; [|simpl; lia].
  intros Hj. destruct (decide (j = 0)) as [->|Hne].
  - by rewrite Z.add_0_r.
  - replace (i + j) with (i + 1 + (j - 1)) by lia. apply IH. lia.
Qed.

Lemma consecutive_stop n i :
  (consecutive b player pos n i < n)%nat →
  marked b player (pos (i + Z.of_nat (consecutive b player pos n i))) = false.
Proof.
  revert i. induction n as [|n IH]; intros i; simpl; [lia|].
  destruct (marked b player (pos i)) eqn:Hi.
  - intros Hlt. rewrite Nat2Z.inj_succ.
    replace (i + Z.succ (Z.of_nat (consecutive b player pos n (i + 1))))
      with (i + 1 + Z.of_nat (consecutive b player pos n (i + 1))) by lia.
    apply IH. lia.
  - intros _. by rewrite Z.add_0_r.
Qed.

Lemma consecutive_ge n i m :
  (m ≤ n)%nat →
  (∀ j, 0 ≤ j < Z.of_nat m → marked b player (pos (i + j)) = true) →
  (m ≤ consecutive b player pos n i)%nat.
Proof.
  revert i m. induction n as [|n IH]; intros i m Hm Hall; simpl; [lia|].
  destruct m as [|m]; [lia|].
  rewrite <- (Z.add_0_r i), Hall, Z.add_0_r by lia.
  apply le_n_S, IH; [lia|]. intros j Hj.
  replace (i + 1 + j) with (i + (1 + j)) by lia. apply Hall. lia.
Qed.

(** Looking at fewer cells cuts the run short and changes nothing else. *)
Lemma consecutive_min n m i :
  (n ≤ m)%nat →
  consecutive b player pos n i
  = Nat.min n (consecutive b player pos m i).
Proof.
  revert m i. induction n as [|n IH]; intros m i Hnm; simpl; [done|].
  destruct m as [|m]; [lia|]. simpl.
  destruct (marked b player (pos i)); [|done].
  f_equal. apply IH. lia.
Qed.

(** A run, in the sense of [runOf], is what [consecutive] computes
    whenever it is allowed to look far enough. *)
Lemma runOf_consecutive n k :
  runOf b player pos k → (k < n)%nat →
  consecutive b player pos n 1 = k.
Proof.
  intros [Hall Hstop] Hlt.
  assert (k ≤ consecutive b player pos n 1)%nat as Hge.
  { apply consecutive_ge; [lia|]. intros j Hj. apply Hall. lia. }
  destruct (decide (consecutive b player pos n 1 = k)) as [|Hne]; [done|].
  rewrite Z.add_comm, (consecutive_marked n 1 (Z.of_nat k)) in Hstop by lia.
  done.
Qed.

Lemma consecutive_runOf n :
  (consecutive b player pos n 1 < n)%nat →
  runOf b player pos (consecutive b player pos n 1).
Proof.
  intros Hlt. split.
  - intros j Hj. replace j with (1 + (j - 1)) by lia.
    apply (consecutive_marked n). lia.
  - rewrite Z.add_comm. by apply consecutive_stop.
Qed.

Lemma runOf_lower n k :
  runOf b player pos k →
  (Nat.min n k ≤ consecutive b player pos n 1)%nat.
Proof.
  intros [Hall _]. apply consecutive_ge; [lia|].
  intros j Hj. apply Hall. lia.
Qed.
End Counting.

(** ** checkWin *)

Section CheckWin.
Implicit Types (b : list (list Z)) (r c player : Z) (d : Z * Z).

Lemma countDirection_eq b r c player dr dc :
  countDirection b r c player dr dc
  = 1 + Z.of_nat (consecutive b player (forward r c dr dc) 4 1)
      + Z.of_nat (consecutive b player (backward r c dr dc) 4 1).
Proof. unfold countDirection. by rewrite !countLoop_consecutive. Qed.

Lemma checkDirections_existsb b r c player ds :
  checkDirections b r c player ds
  = existsb (λ d, countDirection b r c player d.1 d.2 >=? 5) ds.
Proof.
  induction ds as [|[dr dc] ds IH]; simpl; [done|].
  destruct (countDirection b r c player dr dc >=? 5); [done|]. by rewrite IH.
Qed.

Lemma checkWin_true b r c player :
  checkWin b r c player = true ↔
  ∃ d, d ∈ directions ∧ 5 ≤ countDirection b r c player d.1 d.2.
Proof.
  unfold checkWin. rewrite checkDirections_existsb, existsb_exists.
  split; intros (d & Hd & Hcount); exists d.
  - by rewrite list_elem_of_In, <- Z.geb_le.
  - by rewrite <- list_elem_of_In, Z.geb_le.
Qed.

(** Walking four cells each way decides the same test as walking to the
    edge of the board. *)
Lemma countDirection_lineCount b r c player d :
  5 ≤ countDirection b r c player d.1 d.2 ↔ 5 ≤ lineCount b r c player d.
Proof.
  rewrite countDirection_eq. unfold lineCount.
  change (Z.to_nat BOARD_SIZE) with 15%nat.
  rewrite (consecutive_min _ _ _ 4 15), (consecutive_min _ _ _ 4 15) by lia.
  lia.
Qed.

Lemma checkWin_winBySpec b r c player :
  checkWin b r c player = winBySpec b r c player.
Proof.
  apply eq_true_iff_eq. rewrite checkWin_true. unfold winBySpec.
  rewrite existsb_exists.
  split; intros (d & Hd & Hcount); exists d.
  - by rewrite <- list_elem_of_In, Z.geb_le, <- countDirection_lineCount.
  - by rewrite list_elem_of_In, countDirection_lineCount, <- Z.geb_le.
Qed.

Lemma directions_spec d :
  d ∈ directions ↔ d = (0, 1) ∨ d = (1, 0) ∨ d = (1, 1) ∨ d = (1, -1).
Proof. unfold directions. rewrite !elem_of_cons, elem_of_nil. tauto. Qed.

(** From a cell of the board no axis has [BOARD_SIZE] further cells. *)
Lemma forward_run_on_board b r c player d :
  isValid r c = true → d ∈ directions →
  (consecutive b player (forward r c d.1 d.2) (Z.to_nat BOARD_SIZE) 1
   < Z.to_nat BOARD_SIZE)%nat.
Proof.
  intros Hrc Hd. change (Z.to_nat BOARD_SIZE) with 15%nat.
  pose proof (consecutive_le b player (forward r c d.1 d.2) 15 1) as Hle.
  destruct (decide (consecutive b player (forward r c d.1 d.2) 15 1 = 15%nat))
    as [Heq|]; [exfalso|lia].
  pose proof (consecutive_marked b player (forward r c d.1 d.2) 15 1 14) as Hm.
  rewrite Heq in Hm. specialize (Hm ltac:(lia)).
  apply marked_spec in Hm as [Hv _]. apply isValid_spec in Hv, Hrc.
  unfold BOARD_SIZE in *.
  apply directions_spec in Hd as [-> | [-> | [-> | ->]]]; simpl in *; lia.
Qed.

Lemma backward_run_on_board b r c player d :
  isValid r c = true → d ∈ directions →
  (consecutive b player (backward r c d.1 d.2) (Z.to_nat BOARD_SIZE) 1
   < Z.to_nat BOARD_SIZE)%nat.
Proof.
  intros Hrc Hd. change (Z.to_nat BOARD_SIZE) with 15%nat.
  pose proof (consecutive_le b player (backward r c d.1 d.2) 15 1) as Hle.
  destruct (decide (consecutive b player (backward r c d.1 d.2) 15 1 = 15%nat))
    as [Heq|]; [exfalso|lia].
  pose proof (consecutive_marked b player (backward r c d.1 d.2) 15 1 14) as Hm.
  rewrite Heq in Hm. specialize (Hm ltac:(lia)).
  apply marked_spec in Hm as [Hv _]. apply isValid_spec in Hv, Hrc.
  unfold BOARD_SIZE in *.
  apply directions_spec in Hd as [-> | [-> | [-> | ->]]]; simpl in *; lia.
Qed.

(** On the board, [lineCount] is the stone plus the two runs. *)
Lemma lineCount_runs b r c player d :
  isValid r c = true → d ∈ directions →
  ∃ kf kb,
    runOf b player (forward r c d.1 d.2) kf
    ∧ runOf b player (backward r c d.1 d.2) kb
    ∧ lineCount b r c player d = 1 + Z.of_nat kf + Z.of_nat kb.
Proof.
  intros Hrc Hd.
  exists (consecutive b player (forward r c d.1 d.2) (Z.to_nat BOARD_SIZE) 1),
         (consecutive b player (backward r c d.1 d.2) (Z.to_nat BOARD_SIZE) 1).
  split; [|split; [|done]].
  - by apply consecutive_runOf, forward_run_on_board.
  - by apply consecutive_runOf, backward_run_on_board.
Qed.

Lemma runs_countDirection b r c player d kf kb :
  runOf b player (forward r c d.1 d.2) kf →
  runOf b player (backward r c d.1 d.2) kb →
  5 ≤ 1 + Z.of_nat kf + Z.of_nat kb →
  5 ≤ countDirection b r c player d.1 d.2.
Proof.
  intros Hf Hb Hsum. rewrite countDirection_eq.
  pose proof (runOf_lower _ _ _ 4 _ Hf). pose proof (runOf_lower _ _ _ 4 _ Hb).
  lia.
Qed.
End CheckWin.

(** ** The code's tests against the board's cells *)

Section Bridge.
Implicit Types (b : list (list Z)) (r c player : Z) (d : Z * Z) (a : axis).

(** On a 15x15 board the test of the loops, in bounds and equal to the
    player, says that the cell holds the player's mark. *)
Lemma marked_readCell b player r c :
  wf_board b = true →
  marked b player (r, c) = true ↔ readCell b r c = Some player.
Proof.
  intros Hwf. rewrite marked_spec. simpl. split; [by intros [_ Hcell]|].
  intros Hcell. split; [by eapply readCell_valid | done].
Qed.

Lemma unmarked_readCell b player r c :
  wf_board b = true →
  marked b player (r, c) = false ↔ readCell b r c ≠ Some player.
Proof.
  intros Hwf. by rewrite <- not_true_iff_false, marked_readCell.
Qed.

Lemma axisStep_directions a : axisStep a ∈ directions.
Proof. apply directions_spec. destruct a; simpl; auto. Qed.

Lemma directions_axisStep d : d ∈ directions → ∃ a, axisStep a = d.
Proof.
  intros Hd. apply directions_spec in Hd as [-> | [-> | [-> | ->]]].
  - by exists Horizontal.
  - by exists Vertical.
  - by exists Diagonal.
  - by exists AntiDiagonal.
Qed.

Lemma marksFrom_forward b player r c dr dc k :
  wf_board b = true →
  marksFrom b player r c dr dc k ↔ runOf b player (forward r c dr dc) k.
Proof.
  intros Hwf. unfold marksFrom, runOf, forward.
  split; intros [Hall Hstop]; split.
  - intros j Hj. apply marked_readCell; auto.
  - by apply unmarked_readCell.
  - intros j Hj. apply marked_readCell; auto.
  - by apply unmarked_readCell.
Qed.

Lemma backward_forward r c dr dc j :
  backward r c dr dc j = forward r c (- dr) (- dc) j.
Proof. unfold backward, forward. f_equal; lia. Qed.

Lemma marksFrom_backward b player r c dr dc k :
  wf_board b = true →
  marksFrom b player r c (- dr) (- dc) k
  ↔ runOf b player (backward r c dr dc) k.
Proof.
  intros Hwf. rewrite marksFrom_forward by done. unfold runOf.
  split; intros [Hall Hstop]; split.
  - intros j Hj. rewrite backward_forward. auto.
  - by rewrite backward_forward.
  - intros j Hj. rewrite <- backward_forward. auto.
  - by rewrite <- backward_forward.
Qed.
End Bridge.

(** C1.  On a 15x15 board and for a position on it, [checkWin] answers
    true exactly when along one of the four axes (horizontal, vertical,
    diagonal, anti-diagonal) the stone at (r, c), counted as one, plus
    the run of cells holding the player's mark that extends from it one
    way plus the run that extends from it the other way make five or
    more; so a line of six or more wins as well. *)
Theorem checkWin_iff_count_at_least_five b r c player :
  wf_board b = true → 0 ≤ r < BOARD_SIZE → 0 ≤ c < BOARD_SIZE →
  (checkWin b r c player = true ↔
   ∃ (a : axis) (kf kb : nat),
     marksFrom b player r c (axisStep a).1 (axisStep a).2 kf
     ∧ marksFrom b player r c (- (axisStep a).1) (- (axisStep a).2) kb
     ∧ 5 ≤ 1 + Z.of_nat kf + Z.of_nat kb)
  ∧ (∀ (a : axis) (kf kb : nat),
       marksFrom b player r c (axisStep a).1 (axisStep a).2 kf →
       marksFrom b player r c (- (axisStep a).1) (- (axisStep a).2) kb →
       6 ≤ 1 + Z.of_nat kf + Z.of_nat kb →
       checkWin b r c player = true).
Proof.
  intros Hwf Hr Hc.
  assert (isValid r c = true) as Hrc by (by apply isValid_spec).
  assert (∀ (a : axis) (kf kb : nat),
            marksFrom b player r c (axisStep a).1 (axisStep a).2 kf →
            marksFrom b player r c (- (axisStep a).1) (- (axisStep a).2) kb →
            5 ≤ 1 + Z.of_nat kf + Z.of_nat kb →
            checkWin b r c player = true) as Hwins.
  { intros a kf kb Hf Hb Hsum.
    apply marksFrom_forward in Hf; [|done].
    apply marksFrom_backward in Hb; [|done].
    apply checkWin_true. exists (axisStep a).
    split; [apply axisStep_directions|].
    by apply (runs_countDirection b r c player (axisStep a) kf kb). }
  split; [split|].
  - intros Hwin. apply checkWin_true in Hwin as (d & Hd & Hcount).
    apply countDirection_lineCount in Hcount.
    destruct (lineCount_runs b r c player d Hrc Hd) as (kf & kb & Hf & Hb & Heq).
    destruct (directions_axisStep d Hd) as [a <-].
    exists a, kf, kb.
    split; [by apply marksFrom_forward|].
    split; [by apply marksFrom_backward|]. by rewrite <- Heq.
  - intros (a & kf & kb & Hf & Hb & Hsum). by apply (Hwins a kf kb).
  - intros a kf kb Hf Hb Hsum. apply (Hwins a kf kb); [done..|lia].
Qed.

(** ** Scanning the whole board *)

Section Scan.
Implicit Types (b : list (list Z)) (r c player : Z) (d : Z * Z).

Lemma existsb_elem_of {A} (f : A → bool) (l : list A) :
  existsb f l = true ↔ ∃ x, x ∈ l ∧ f x = true.
Proof.
  rewrite existsb_exists. by setoid_rewrite list_elem_of_In.
Qed.

Lemma elem_of_indices i : i ∈ indices ↔ 0 ≤ i < BOARD_SIZE.
Proof.
  unfold indices, BOARD_SIZE. rewrite list_elem_of_fmap.
  setoid_rewrite elem_of_seq. split.
  - intros (n & -> & Hn). lia.
  - intros Hi. exists (Z.to_nat i). lia.
Qed.

Lemma fiveFrom_true b player r0 c0 d :
  fiveFrom b player r0 c0 d = true ↔
  ∀ i, 0 ≤ i ≤ 4 → marked b player (r0 + d.1 * i, c0 + d.2 * i) = true.
Proof.
  unfold fiveFrom. simpl. rewrite !andb_true_iff. split.
  - intros (H0 & H1 & H2 & H3 & H4 & _) i Hi.
    assert (i = 0 ∨ i = 1 ∨ i = 2 ∨ i = 3 ∨ i = 4) as Hcases by lia.
    destruct Hcases as [-> | [-> | [-> | [-> | ->]]]]; assumption.
  - intros Hall. repeat split; apply Hall; lia.
Qed.

Lemma boardHasLine_true b player :
  boardHasLine b player = true ↔
  ∃ r0 c0 d, d ∈ directions ∧
    ∀ i, 0 ≤ i ≤ 4 → marked b player (r0 + d.1 * i, c0 + d.2 * i) = true.
Proof.
  unfold boardHasLine. rewrite existsb_elem_of. split.
  - intros (r0 & _ & Hr0). apply existsb_elem_of in Hr0 as (c0 & _ & Hc0).
    apply existsb_elem_of in Hc0 as (d & Hd & Hfive).
    exists r0, c0, d. by rewrite <- fiveFrom_true.
  - intros (r0 & c0 & d & Hd & Hall).
    pose proof (Hall 0 ltac:(lia)) as H0.
    apply marked_spec in H0 as [H0 _]. simpl in H0.
    rewrite !Z.mul_0_r, !Z.add_0_r in H0. apply isValid_spec in H0 as [Hr Hc].
    exists r0. split; [by apply elem_of_indices|].
    apply existsb_elem_of. exists c0. split; [by apply elem_of_indices|].
    apply existsb_elem_of. exists d. by rewrite fiveFrom_true.
Qed.

(** A line of five that is on the board after a stone is placed and was
    not there before passes through the new stone. *)
Lemma new_line_through_stone b r c player r0 c0 d :
  0 ≤ r → 0 ≤ c → d ∈ directions →
  boardHasLine b player = false →
  (∀ i, 0 ≤ i ≤ 4 →
     marked (writeCell b r c player) player (r0 + d.1 * i, c0 + d.2 * i) = true) →
  ∃ k, 0 ≤ k ≤ 4 ∧ (r0 + d.1 * k, c0 + d.2 * k) = (r, c).
Proof.
  intros Hr Hc Hd Hnone Hall.
  destruct (decide (Exists (λ k, (r0 + d.1 * k, c0 + d.2 * k) = (r, c))
                           [0; 1; 2; 3; 4])) as [Hyes|Hno].
  - apply Exists_exists in Hyes as (k & Hk & Heq).
    exists k. split; [|done].
    rewrite !elem_of_cons, elem_of_nil in Hk. lia.
  - exfalso. apply not_true_iff_false in Hnone. apply Hnone.
    apply boardHasLine_true. exists r0, c0, d. split; [done|].
    intros i Hi. rewrite <- (marked_writeCell_ne b player r c player); auto.
    intros Heq. apply Hno, Exists_exists. exists i. split; [|done].
    rewrite !elem_of_cons. lia.
Qed.

Lemma line_through_stone_wins b r c player r0 c0 d k :
  d ∈ directions → 0 ≤ k ≤ 4 →
  (r0 + d.1 * k, c0 + d.2 * k) = (r, c) →
  (∀ i, 0 ≤ i ≤ 4 → marked b player (r0 + d.1 * i, c0 + d.2 * i) = true) →
  checkWin b r c player = true.
Proof.
  intros Hd Hk [= Hr0 Hc0] Hall.
  apply checkWin_true. exists d. split; [done|].
  rewrite countDirection_eq.
  assert (Z.to_nat (4 - k)
          ≤ consecutive b player (forward r c d.1 d.2) 4 1)%nat as Hf.
  { apply consecutive_ge; [lia|]. intros j Hj. unfold forward.
    replace (r + d.1 * (1 + j)) with (r0 + d.1 * (k + 1 + j)) by lia.
    replace (c + d.2 * (1 + j)) with (c0 + d.2 * (k + 1 + j)) by lia.
    apply Hall. lia. }
  assert (Z.to_nat k
          ≤ consecutive b player (backward r c d.1 d.2) 4 1)%nat as Hb.
  { apply consecutive_ge; [lia|]. intros j Hj. unfold backward.
    replace (r - d.1 * (1 + j)) with (r0 + d.1 * (k - 1 - j)) by lia.
    replace (c - d.2 * (1 + j)) with (c0 + d.2 * (k - 1 - j)) by lia.
    apply Hall. lia. }
  lia.
Qed.

(** Conversely, when the origin holds the player's mark a true answer of
    [checkWin] exhibits five in a row on the board. *)
Lemma checkWin_line b r c player :
  marked b player (r, c) = true →
  checkWin b r c player = true →
  boardHasLine b player = true.
Proof.
  intros Horigin Hwin.
  apply checkWin_true in Hwin as (d & Hd & Hcount).
  rewrite countDirection_eq in Hcount.
  set (f := consecutive b player (forward r c d.1 d.2) 4 1) in *.
  set (g := consecutive b player (backward r c d.1 d.2) 4 1) in *.
  pose proof (consecutive_le b player (backward r c d.1 d.2) 4 1) as Hg4.
  fold g in Hg4.
  apply boardHasLine_true.
  exists (r - d.1 * Z.of_nat g), (c - d.2 * Z.of_nat g), d.
  split; [done|]. intros i Hi.
  destruct (Z.lt_trichotomy i (Z.of_nat g)) as [Hlt | [Heq | Hgt]].
  - pose proof (consecutive_marked b player (backward r c d.1 d.2) 4 1
                  (Z.of_nat g - i - 1)) as Hm.
    fold g in Hm. specialize (Hm ltac:(lia)). unfold backward in Hm.
    replace (r - d.1 * Z.of_nat g + d.1 * i)
      with (r - d.1 * (1 + (Z.of_nat g - i - 1))) by lia.
    replace (c - d.2 * Z.of_nat g + d.2 * i)
      with (c - d.2 * (1 + (Z.of_nat g - i - 1))) by lia.
    exact Hm.
  - rewrite Heq.
    replace (r - d.1 * Z.of_nat g + d.1 * Z.of_nat g) with r by lia.
    replace (c - d.2 * Z.of_nat g + d.2 * Z.of_nat g) with c by lia.
    exact Horigin.
  - pose proof (consecutive_marked b player (forward r c d.1 d.2) 4 1
                  (i - Z.of_nat g - 1)) as Hm.
    fold f in Hm. specialize (Hm ltac:(lia)). unfold forward in Hm.
    replace (r - d.1 * Z.of_nat g + d.1 * i)
      with (r + d.1 * (1 + (i - Z.of_nat g - 1))) by lia.
    replace (c - d.2 * Z.of_nat g + d.2 * i)
      with (c + d.2 * (1 + (i - Z.of_nat g - 1))) by lia.
    exact Hm.
Qed.
End Scan.

(** ** Five in a row on the board *)

Section FiveInRow.
Implicit Types (b : list (list Z)) (r c player : Z) (a : axis).

(** The scan with the code's tests finds what [fiveInRow] describes. *)
Lemma fiveInRow_boardHasLine b player :
  wf_board b = true →
  fiveInRow b player ↔ boardHasLine b player = true.
Proof.
  intros Hwf. rewrite boardHasLine_true. split.
  - intros (a & r0 & c0 & Hfive). exists r0, c0, (axisStep a).
    split; [apply axisStep_directions|].
    intros i Hi. apply marked_readCell; [done|]. by apply Hfive.
  - intros (r0 & c0 & d & Hd & Hall).
    destruct (directions_axisStep d Hd) as [a <-]. exists a, r0, c0.
    intros i Hi. apply marked_readCell; [done|]. by apply Hall.
Qed.

Lemma not_fiveInRow_boardHasLine b player :
  wf_board b = true →
  ¬ fiveInRow b player ↔ boardHasLine b player = false.
Proof.
  intros Hwf. by rewrite fiveInRow_boardHasLine, not_true_iff_false.
Qed.

Lemma fiveInRowb_spec b player :
  wf_board b = true → fiveInRowb b player = true ↔ fiveInRow b player.
Proof.
  intros Hwf. unfold fiveInRowb, fiveInRow. rewrite existsb_elem_of.
  assert (∀ a r0 c0,
            forallb (λ i, bool_decide
                       (readCell b (r0 + (axisStep a).1 * i)
                                   (c0 + (axisStep a).2 * i) = Some player))
                    [0; 1; 2; 3; 4] = true
            ↔ fiveAlong b player a r0 c0) as Hfive.
  { intros a r0 c0. unfold fiveAlong. simpl.
    rewrite !andb_true_iff, !bool_decide_eq_true. split.
    - intros (H0 & H1 & H2 & H3 & H4 & _) i Hi.
      assert (i = 0 ∨ i = 1 ∨ i = 2 ∨ i = 3 ∨ i = 4) as Hcases by lia.
      destruct Hcases as [-> | [-> | [-> | [-> | ->]]]]; assumption.
    - intros Hall. repeat split; apply Hall; lia. }
  split.
  - intros (a & _ & Hrows). apply existsb_elem_of in Hrows as (r0 & _ & Hcols).
    apply existsb_elem_of in Hcols as (c0 & _ & Hcells).
    exists a, r0, c0. by apply Hfive.
  - intros (a & r0 & c0 & Hall).
    pose proof (Hall 0 ltac:(lia)) as Hstart.
    rewrite !Z.mul_0_r, !Z.add_0_r in Hstart.
    apply (readCell_valid b r0 c0 player Hwf), isValid_spec in Hstart
      as [Hr0 Hc0].
    unfold BOARD_SIZE in *.
    exists a. split; [destruct a; rewrite !elem_of_cons; auto|].
    apply existsb_elem_of. exists r0. split; [apply elem_of_seqZ; lia|].
    apply existsb_elem_of. exists c0. split; [apply elem_of_seqZ; lia|].
    by apply Hfive.
Qed.

Lemma fiveInRowb_false b player :
  wf_board b = true → fiveInRowb b player = false → ¬ fiveInRow b player.
Proof.
  intros Hwf Hno Hfive. apply (fiveInRowb_spec b player Hwf) in Hfive.
  congruence.
Qed.
End FiveInRow.

(** C2.  Looking from the new stone only is as good as scanning the
    board: when a 15x15 board on which the player has no five in a row
    receives the player's mark on an empty cell, the resulting board has
    five in a row for that player somewhere, along any of the four axes,
    exactly when [checkWin] at the new stone answers true; in particular
    every line the move creates is found. *)
Theorem checkWin_agrees_with_board_scan b r c player :
  wf_board b = true → 0 ≤ r < BOARD_SIZE → 0 ≤ c < BOARD_SIZE →
  readCell b r c = Some Empty →
  ¬ fiveInRow b player →
  (fiveInRow (writeCell b r c player) player
   ↔ checkWin (writeCell b r c player) r c player = true)
  ∧ (fiveInRow (writeCell b r c player) player →
     checkWin (writeCell b r c player) r c player = true).
Proof.
  intros Hwf Hr Hc Hempty Hnone.
  assert (isValid r c = true) as Hrc by (by apply isValid_spec).
  apply not_fiveInRow_boardHasLine in Hnone; [|done].
  pose proof (wf_board_writeCell b r c player Hwf) as Hwf'.
  assert (fiveInRow (writeCell b r c player) player
          ↔ checkWin (writeCell b r c player) r c player = true) as Hiff.
  { rewrite (fiveInRow_boardHasLine _ _ Hwf'). split.
    - intros Hline.
      apply boardHasLine_true in Hline as (r0 & c0 & d & Hd & Hall).
      destruct (new_line_through_stone b r c player r0 c0 d)
        as (k & Hk & Heq); [lia | lia | done..|].
      by apply (line_through_stone_wins _ r c player r0 c0 d k).
    - apply checkWin_line. apply marked_spec. simpl. split; [done|].
      apply readCell_writeCell_eq. by rewrite Hempty. }
  split; [exact Hiff | apply Hiff].
Qed.

(** ** Clicks *)

Section Clicks.
Implicit Types (g : Game) (r c : Z).

Lemma handleClick_accepted g r c :
  accepted g r c → handleClick r c g = (Return undefined, placeStone r c g).
Proof.
  intros (Hactive & Hr & Hc & Hcell).
  unfold handleClick. rewrite Hactive, Hcell. unfold BOARD_SIZE in *. simpl.
  destruct (Z.ltb_spec r 0), (Z.geb_spec r 15), (Z.ltb_spec c 0),
    (Z.geb_spec c 15); (done || lia).
Qed.

Lemma handleClick_rejected g r c :
  ¬ accepted g r c → handleClick r c g = (Return undefined, g).
Proof.
  intros Hno. unfold handleClick.
  destruct (gameActive g) eqn:Hactive; simpl; [|done].
  destruct ((r <? 0) || (r >=? BOARD_SIZE) || (c <? 0) || (c >=? BOARD_SIZE))
    eqn:Hbounds; [done|].
  case_bool_decide as Hcell; simpl; [|done].
  exfalso. apply Hno. unfold accepted, BOARD_SIZE in *.
  rewrite !orb_false_iff, !Z.ltb_ge in Hbounds.
  destruct Hbounds as [[[Hr0 Hr1] Hc0] Hc1].
  destruct (Z.geb_spec r 15), (Z.geb_spec c 15); try done;
    repeat split; (done || lia).
Qed.

Lemma accepted_dec g r c : accepted g r c ∨ ¬ accepted g r c.
Proof.
  unfold accepted.
  destruct (decide (gameActive g = true)); [|tauto].
  destruct (decide (0 ≤ r < BOARD_SIZE)); [|tauto].
  destruct (decide (0 ≤ c < BOARD_SIZE)); [|tauto].
  destruct (decide (readCell (board g) r c = Some Empty)); tauto.
Qed.

Lemma click_accepted g r c : accepted g r c → click r c g = placeStone r c g.
Proof. intros Hacc. unfold click. by rewrite handleClick_accepted. Qed.

Lemma click_rejected g r c : ¬ accepted g r c → click r c g = g.
Proof. intros Hno. unfold click. by rewrite handleClick_rejected. Qed.

Lemma board_placeStone g r c :
  board (placeStone r c g) = writeCell (board g) r c (currentPlayer g).
Proof.
  unfold placeStone. simpl.
  by destruct (checkWin (writeCell (board g) r c (currentPlayer g)) r c
                        (currentPlayer g)).
Qed.

Lemma placeStone_win g r c :
  checkWin (writeCell (board g) r c (currentPlayer g)) r c (currentPlayer g)
  = true →
  placeStone r c g
  = endGame (currentPlayer g)
            (withBoard (writeCell (board g) r c (currentPlayer g)) g).
Proof. intros Hwin. unfold placeStone. simpl. by rewrite Hwin. Qed.

Lemma placeStone_no_win g r c :
  checkWin (writeCell (board g) r c (currentPlayer g)) r c (currentPlayer g)
  = false →
  placeStone r c g
  = updateTurnUI
      (withPlayer (if currentPlayer g =? 1 then 2 else 1)
         (withBoard (writeCell (board g) r c (currentPlayer g)) g)).
Proof. intros Hwin. unfold placeStone. simpl. by rewrite Hwin. Qed.

(** Once the game is over nothing happens any more. *)
Lemma click_inactive g r c : gameActive g = false → click r c g = g.
Proof.
  intros Hover. apply click_rejected. intros (Hactive & _). congruence.
Qed.

Lemma clicks_inactive g ps : gameActive g = false → clicks g ps = g.
Proof.
  intros Hover. induction ps as [|[r c] ps IH]; simpl; [done|].
  unfold clicks in *. simpl. by rewrite click_inactive.
Qed.

Lemma run_inactive g os :
  gameActive g = false → gameActive (run g os) = true → Reset ∈ os.
Proof.
  revert g. induction os as [|o os IH]; intros g Hover Hrun; simpl in *.
  - congruence.
  - destruct o as [r c|]; [|left].
    right. apply (IH g); [done|].
    unfold run in *. simpl in Hrun. by rewrite click_inactive in Hrun.
Qed.

(** The shape of the board is kept by every click. *)
Lemma wf_board_click g r c :
  wf_board (board g) = true → wf_board (board (click r c g)) = true.
Proof.
  intros Hwf. destruct (accepted_dec g r c) as [Hacc|Hno].
  - rewrite click_accepted, board_placeStone by done.
    by apply wf_board_writeCell.
  - by rewrite click_rejected.
Qed.

Lemma readCell_click_other g r c r' c' :
  (r', c') ≠ (r, c) →
  readCell (board (click r c g)) r' c' = readCell (board g) r' c'.
Proof.
  intros Hne. destruct (accepted_dec g r c) as [Hacc|Hno].
  - rewrite click_accepted, board_placeStone by done.
    destruct Hacc as (_ & Hr & Hc & _).
    apply readCell_writeCell_ne; (done || lia).
  - by rewrite click_rejected.
Qed.
End Clicks.

(** ** Invariants of the reachable states *)

Section Invariants.
Implicit Types (g : Game) (r c : Z).

Lemma wf_board_initBoardState g : wf_board (board (initBoardState g)) = true.
Proof. reflexivity. Qed.

Lemma players_turn_click g r c : players_turn g → players_turn (click r c g).
Proof.
  intros Hturn. destruct (accepted_dec g r c) as [Hacc|Hno].
  - rewrite click_accepted by done. unfold placeStone. simpl.
    destruct (checkWin _ _ _ _); simpl; [done|].
    unfold players_turn, Black, White in *. simpl.
    destruct Hturn as [-> | ->]; simpl; auto.
  - by rewrite click_rejected.
Qed.

Lemma reachable_inv g :
  reachable g → wf_board (board g) = true ∧ players_turn g.
Proof.
  induction 1 as [tt wt mh | g o _ [IHwf IHturn]].
  - split; [reflexivity | by left].
  - destruct o as [r c|]; simpl.
    + split; [by apply wf_board_click | by apply players_turn_click].
    + split; [reflexivity | by left].
Qed.
End Invariants.

(** ** The claims about the game *)

(** C3, as the code has it.  A click on an occupied cell, outside the
    board or after the game is over returns [undefined] like every other
    click and leaves the whole state as it was: the board, the player to
    move, the active flag and the texts. *)
Theorem rejected_click_changes_nothing g r c :
  wf_board (board g) = true →
  gameActive g = false
  ∨ ¬ (0 ≤ r < BOARD_SIZE ∧ 0 ≤ c < BOARD_SIZE)
  ∨ (∃ v, readCell (board g) r c = Some v ∧ v ≠ Empty) →
  handleClick r c g = (Return undefined, g).
Proof.
  intros _ Hcase. apply handleClick_rejected.
  intros (Hactive & Hr & Hc & Hcell).
  destruct Hcase as [Hover | [Hout | (v & Hv & Hne)]]; [congruence | tauto |].
  rewrite Hcell in Hv. congruence.
Qed.

(** C4.  An accepted move that does not win hands the turn to the other
    player; a rejected click leaves the turn where it was. *)
Theorem turn_alternates g r c :
  wf_board (board g) = true →
  (accepted g r c →
   checkWin (board (click r c g)) r c (currentPlayer g) = false →
   (currentPlayer g = Black → currentPlayer (click r c g) = White)
   ∧ (currentPlayer g = White → currentPlayer (click r c g) = Black))
  ∧ (¬ accepted g r c → currentPlayer (click r c g) = currentPlayer g).
Proof.
  intros _. split.
  - intros Hacc. rewrite click_accepted, board_placeStone by done.
    intros Hnowin. rewrite placeStone_no_win by done. simpl.
    split; intros ->; reflexivity.
  - intros Hno. by rewrite click_rejected.
Qed.

(** C5.  After a winning move every click, whatever its coordinates and
    however many came before it, is turned away and changes nothing; the
    game becomes active again only through a reset, and a reset does make
    it active. *)
Theorem won_until_reset g r c :
  wf_board (board g) = true → accepted g r c →
  checkWin (board (click r c g)) r c (currentPlayer g) = true →
  gameActive (click r c g) = false
  ∧ (∀ ps r' c',
       handleClick r' c' (clicks (click r c g) ps)
       = (Return undefined, click r c g))
  ∧ (∀ os, gameActive (run (click r c g) os) = true → Reset ∈ os)
  ∧ gameActive (resetGame (click r c g)) = true.
Proof.
  intros _ Hacc. rewrite click_accepted, board_placeStone by done.
  intros Hwin. rewrite placeStone_win by done.
  set (w := endGame _ _). assert (gameActive w = false) as Hover by done.
  split; [done|]. split; [|split; [|done]].
  - intros ps r' c'. rewrite clicks_inactive by done.
    apply handleClick_rejected. intros (Hactive & _). congruence.
  - intros os. by apply run_inactive.
Qed.

(** C6.  An accepted move changes exactly one cell: the clicked cell goes
    from Empty to the mark of the player who moved, and every other cell
    reads as before. *)
Theorem accepted_move_changes_one_cell g r c :
  wf_board (board g) = true → players_turn g → accepted g r c →
  readCell (board g) r c = Some Empty
  ∧ readCell (board (click r c g)) r c = Some (currentPlayer g)
  ∧ currentPlayer g ≠ Empty
  ∧ (∀ r' c', (r', c') ≠ (r, c) →
       readCell (board (click r c g)) r' c' = readCell (board g) r' c')
  ∧ wf_board (board (click r c g)) = true.
Proof.
  intros Hwf Hturn Hacc. pose proof Hacc as (_ & Hr & Hc & Hcell).
  split; [done|]. split; [|split; [|split]].
  - rewrite click_accepted, board_placeStone by done.
    apply readCell_writeCell_eq. by rewrite Hcell.
  - unfold players_turn, Empty, Black, White in *. lia.
  - intros r' c' Hne. by apply readCell_click_other.
  - by apply wf_board_click.
Qed.

(** C7.  From any state whatever, [resetGame] gives a 15x15 board whose
    cells are all Empty, with Black to move and the game active. *)
Theorem reset_gives_fresh_game g :
  board (resetGame g)
  = replicate (Z.to_nat BOARD_SIZE) (replicate (Z.to_nat BOARD_SIZE) Empty)
  ∧ wf_board (board (resetGame g)) = true
  ∧ (∀ r c, isValid r c = true → readCell (board (resetGame g)) r c = Some Empty)
  ∧ (∀ r c v, readCell (board (resetGame g)) r c = Some v → v = Empty)
  ∧ currentPlayer (resetGame g) = Black
  ∧ gameActive (resetGame g) = true.
Proof.
  split; [done|]. split; [done|]. split; [|split; [|done]].
  - intros r c Hrc. by apply readCell_empty_board.
  - intros r c v Hv.
    pose proof (readCell_valid _ r c v (wf_board_initBoardState _) Hv) as Hrc.
    simpl in Hv. rewrite readCell_empty_board in Hv by done.
    unfold Empty. congruence.
Qed.

(** C8.  In a game without reset a mark, once on the board, stays where
    it is: after any sequence of clicks the cell still holds it. *)
Theorem marks_are_permanent g ps r c v :
  wf_board (board g) = true →
  readCell (board g) r c = Some v → v ≠ Empty →
  readCell (board (clicks g ps)) r c = Some v.
Proof.
  intros _. revert g. induction ps as [|[r' c'] ps IH]; intros g Hv Hne.
  - done.
  - unfold clicks in *. simpl. apply IH; [|done].
    destruct (accepted_dec g r' c') as [Hacc|Hno].
    + rewrite readCell_click_other; [done|].
      intros [= -> ->]. destruct Hacc as (_ & _ & _ & Hcell). congruence.
    + by rewrite click_rejected.
Qed.

(** C9.  [checkWin] counts the origin as one whatever the board holds
    there: with any value [v] written at (r, c) (Empty, the opponent's
    mark, anything), four marks of the player next to (r, c) along an
    axis, on one side or split over both, make it answer true. *)
Theorem checkWin_counts_origin_unconditionally b r c player v d kf kb :
  wf_board b = true → isValid r c = true → d ∈ directions →
  (∀ i, 1 ≤ i ≤ kf → marked b player (forward r c d.1 d.2 i) = true) →
  (∀ i, 1 ≤ i ≤ kb → marked b player (backward r c d.1 d.2 i) = true) →
  0 ≤ kf → 0 ≤ kb → kf + kb = 4 →
  readCell (writeCell b r c v) r c = Some v
  ∧ checkWin (writeCell b r c v) r c player = true.
Proof.
  intros Hwf Hrc Hd Hf Hb Hkf Hkb Hsum.
  pose proof Hrc as Hrc'. apply isValid_spec in Hrc' as [Hr Hc].
  split; [by apply readCell_writeCell_eq, wf_readCell|].
  apply checkWin_true. exists d. split; [done|]. rewrite countDirection_eq.
  assert (Z.to_nat kf ≤ consecutive (writeCell b r c v) player
                          (forward r c d.1 d.2) 4 1)%nat.
  { apply consecutive_ge; [lia|]. intros j Hj.
    rewrite marked_writeCell_ne; [apply Hf; lia | lia | lia |].
    unfold forward. apply directions_spec in Hd as [-> | [-> | [-> | ->]]];
      simpl; intros [= ? ?]; lia. }
  assert (Z.to_nat kb ≤ consecutive (writeCell b r c v) player
                          (backward r c d.1 d.2) 4 1)%nat.
  { apply consecutive_ge; [lia|]. intros j Hj.
    rewrite marked_writeCell_ne; [apply Hb; lia | lia | lia |].
    unfold backward. apply directions_spec in Hd as [-> | [-> | [-> | ->]]];
      simpl; intros [= ? ?]; lia. }
  lia.
Qed.

(** C10.  A winning move does not pass the turn: from the win on, through
    any further clicks, the current player is the player who placed the
    winning stone, and the winner text names that player. *)
Theorem winner_stays_current_player g r c ps :
  wf_board (board g) = true → accepted g r c →
  checkWin (board (click r c g)) r c (currentPlayer g) = true →
  gameActive (clicks (click r c g) ps) = false
  ∧ currentPlayer (clicks (click r c g) ps) = currentPlayer g
  ∧ readCell (board (clicks (click r c g) ps)) r c
    = Some (currentPlayer (clicks (click r c g) ps))
  ∧ (currentPlayer (clicks (click r c g) ps) = Black →
     winnerText (clicks (click r c g) ps) = "흑돌(Black) 승리!")
  ∧ (currentPlayer (clicks (click r c g) ps) = White →
     winnerText (clicks (click r c g) ps) = "백돌(White) 승리!")
  ∧ modalHidden (clicks (click r c g) ps) = false.
Proof.
  intros _ Hacc. pose proof Hacc as (_ & Hr & Hc & Hcell).
  rewrite click_accepted, board_placeStone by done.
  intros Hwin. rewrite placeStone_win by done.
  set (w := endGame _ _). assert (gameActive w = false) as Hover by done.
  rewrite clicks_inactive by done. subst w. simpl.
  split; [done|]. split; [done|]. split; [|split; [|split; [|done]]].
  - apply readCell_writeCell_eq. by rewrite Hcell.
  - by intros ->.
  - by intros ->.
Qed.

(** ** The claims on sample games *)

Ltac accept_click :=
  unfold accepted, BOARD_SIZE; repeat split; (reflexivity || lia).

Lemma checkWin_iff_count_at_least_five_witness :
  wf_board (board blackWon) = true
  ∧ marksFrom (board blackWon) Black 7 7 0 1 0
  ∧ marksFrom (board blackWon) Black 7 7 0 (-1) 4
  ∧ checkWin (board blackWon) 7 7 Black = true.
Proof.
  assert (marksFrom (board blackWon) Black 7 7 0 1 0) as Hf.
  { split; [intros j Hj; lia|].
    intros Hcell. vm_compute in Hcell. discriminate Hcell. }
  assert (marksFrom (board blackWon) Black 7 7 0 (-1) 4) as Hb.
  { split.
    - intros j Hj.
      assert (j = 1 ∨ j = 2 ∨ j = 3 ∨ j = 4) as Hcases by lia.
      destruct Hcases as [-> | [-> | [-> | ->]]]; vm_compute; reflexivity.
    - intros Hcell. vm_compute in Hcell. discriminate Hcell. }
  split; [vm_compute; reflexivity|]. split; [exact Hf|]. split; [exact Hb|].
  apply (checkWin_iff_count_at_least_five (board blackWon) 7 7 Black);
    [vm_compute; reflexivity | unfold BOARD_SIZE; lia | unfold BOARD_SIZE; lia |].
  exists Horizontal, 0%nat, 4%nat.
  split; [exact Hf|]. split; [exact Hb|]. simpl. lia.
Defined.

Lemma checkWin_agrees_with_board_scan_witness :
  ¬ fiveInRow (board fourInRow) Black
  ∧ fiveInRow (writeCell (board fourInRow) 7 7 Black) Black
  ∧ checkWin (writeCell (board fourInRow) 7 7 Black) 7 7 Black = true.
Proof.
  assert (¬ fiveInRow (board fourInRow) Black) as Hnone.
  { apply fiveInRowb_false; vm_compute; reflexivity. }
  assert (fiveInRow (writeCell (board fourInRow) 7 7 Black) Black) as Hfive.
  { exists Horizontal, 7, 3. intros i Hi.
    assert (i = 0 ∨ i = 1 ∨ i = 2 ∨ i = 3 ∨ i = 4) as Hcases by lia.
    destruct Hcases as [-> | [-> | [-> | [-> | ->]]]]; vm_compute; reflexivity. }
  split; [exact Hnone|]. split; [exact Hfive|].
  apply (checkWin_agrees_with_board_scan (board fourInRow) 7 7 Black);
    [ vm_compute; reflexivity | unfold BOARD_SIZE; lia | unfold BOARD_SIZE; lia
    | vm_compute; reflexivity | exact Hnone | exact Hfive ].
Defined.

(** C3 as stated fails: the click on the occupied cell (7,3) is turned
    away, yet the call ends exactly as the accepted click on (8,8) does,
    by returning [undefined]; nothing signals the rejection. *)
Lemma occupied_click_signals_nothing :
  gameActive fourInRow = true
  ∧ readCell (board fourInRow) 7 3 = Some Black
  ∧ snd (handleClick 7 3 fourInRow) = fourInRow
  ∧ signalsInvalidMove (fst (handleClick 7 3 fourInRow)) = false
  ∧ accepted fourInRow 8 8
  ∧ fst (handleClick 7 3 fourInRow) = fst (handleClick 8 8 fourInRow).
Proof.
  repeat split; try reflexivity; unfold BOARD_SIZE; lia.
Qed.

Lemma rejected_click_changes_nothing_witness :
  readCell (board fourInRow) 7 3 = Some Black
  ∧ handleClick 7 3 fourInRow = (Return undefined, fourInRow).
Proof.
  split; [reflexivity|].
  apply (rejected_click_changes_nothing fourInRow 7 3); [reflexivity|].
  right; right. exists Black. split; [reflexivity | unfold Black, Empty; lia].
Defined.

Lemma turn_alternates_witness :
  currentPlayer newGame = Black
  ∧ currentPlayer (click 7 7 newGame) = White
  ∧ currentPlayer (click 7 7 (click 7 7 newGame)) = White.
Proof.
  split; [reflexivity|]. split.
  - destruct (turn_alternates newGame 7 7 eq_refl) as [Hmove _].
    apply Hmove; [accept_click | reflexivity | reflexivity].
  - destruct (turn_alternates (click 7 7 newGame) 7 7 eq_refl) as [_ Hstay].
    apply Hstay. intros (_ & _ & _ & Hcell). vm_compute in Hcell. discriminate.
Defined.

Lemma won_until_reset_witness :
  gameActive blackWon = false
  ∧ handleClick 3 3 (clicks blackWon [(1, 1); (7, 8)])
    = (Return undefined, blackWon)
  ∧ gameActive (resetGame blackWon) = true.
Proof.
  destruct (won_until_reset fourInRow 7 7 eq_refl) as (Hover & Hclicks & _ & Hreset);
    [accept_click | reflexivity |].
  split; [exact Hover|]. split; [|exact Hreset].
  exact (Hclicks [(1, 1); (7, 8)] 3 3).
Defined.

Lemma accepted_move_changes_one_cell_witness :
  readCell (board newGame) 7 7 = Some Empty
  ∧ readCell (board (click 7 7 newGame)) 7 7 = Some Black
  ∧ readCell (board (click 7 7 newGame)) 7 8 = readCell (board newGame) 7 8.
Proof.
  destruct (accepted_move_changes_one_cell newGame 7 7 eq_refl)
    as (Hbefore & Hafter & _ & Hrest & _);
    [left; reflexivity | accept_click |].
  split; [exact Hbefore|]. split; [exact Hafter|].
  apply Hrest. intros Heq. discriminate Heq.
Defined.

Lemma marks_are_permanent_witness :
  readCell (board fourInRow) 7 3 = Some Black
  ∧ readCell (board (clicks fourInRow [(7, 3); (7, 7); (1, 1)])) 7 3 = Some Black.
Proof.
  split; [reflexivity|].
  apply (marks_are_permanent fourInRow [(7, 3); (7, 7); (1, 1)] 7 3 Black);
    [reflexivity | reflexivity | unfold Black, Empty; lia].
Defined.

Lemma checkWin_counts_origin_unconditionally_witness :
  writeCell (board fourInRow) 7 7 Empty = board fourInRow
  ∧ readCell (writeCell (board fourInRow) 7 7 Empty) 7 7 = Some Empty
  ∧ checkWin (writeCell (board fourInRow) 7 7 Empty) 7 7 Black = true.
Proof.
  split; [vm_compute; reflexivity|].
  apply (checkWin_counts_origin_unconditionally
           (board fourInRow) 7 7 Black Empty (0, 1) 0 4);
    [ vm_compute; reflexivity | reflexivity
    | rewrite directions_spec; by left | lia | | lia | lia | lia ].
  intros i Hi.
  assert (i = 1 ∨ i = 2 ∨ i = 3 ∨ i = 4) as Hcases by lia.
  destruct Hcases as [-> | [-> | [-> | ->]]]; vm_compute; reflexivity.
Defined.

Lemma winner_stays_current_player_witness :
  currentPlayer fourInRow = Black
  ∧ gameActive (clicks blackWon [(3, 3); (7, 8)]) = false
  ∧ currentPlayer (clicks blackWon [(3, 3); (7, 8)]) = Black
  ∧ winnerText (clicks blackWon [(3, 3); (7, 8)]) = "흑돌(Black) 승리!".
Proof.
  destruct (winner_stays_current_player fourInRow 7 7 [(3, 3); (7, 8)] eq_refl)
    as (Hover & Hplayer & _ & Hblack & _);
    [accept_click | reflexivity |].
  split; [reflexivity|]. split; [exact Hover|]. split; [exact Hplayer|].
  apply Hblack. exact Hplayer.
Defined.

(** The scenarios of the specification. *)

(** Horizontal: Black on (7,3) ... (7,7), White elsewhere in between; the
    game is won on the fifth placement and not before. *)
Example horizontal_win_on_fifth_stone :
  gameActive fourInRow = true ∧ gameActive blackWon = false
  ∧ currentPlayer blackWon = Black.
Proof. repeat split. Qed.

(** Diagonal: Black on (0,0), (1,1), (2,2), (3,3), (4,4). *)
Example diagonal_win_on_fifth_stone :
  gameActive (clicks newGame [(0,0); (0,5); (1,1); (0,6); (2,2); (0,7);
                              (3,3); (0,8)]) = true
  ∧ gameActive (clicks newGame [(0,0); (0,5); (1,1); (0,6); (2,2); (0,7);
                                (3,3); (0,8); (4,4)]) = false.
Proof. repeat split. Qed.

(** Six in a row, made by filling the gap at (7,5), wins too. *)
Example six_in_a_row_wins :
  lineCount (board (click 7 5 splitRow)) 7 5 Black (0, 1) = 6
  ∧ checkWin (board (click 7 5 splitRow)) 7 5 Black = true
  ∧ gameActive (click 7 5 splitRow) = false.
Proof. repeat split. Qed.

(** Asked about an empty cell next to four stones, [checkWin] says yes
    although the board holds no line of five. *)
Example four_stones_and_an_empty_origin :
  readCell (board fourInRow) 7 7 = Some Empty
  ∧ checkWin (board fourInRow) 7 7 Black = true
  ∧ boardHasLine (board fourInRow) Black = false.
Proof. repeat split. Qed.

(** The sample games are states of the page. *)
Lemma reachable_clicks g ps : reachable g → reachable (clicks g ps).
Proof.
  revert g. induction ps as [|[r c] ps IH]; intros g Hg; [done|].
  unfold clicks in *. simpl. apply IH. apply (reach_step g (Click r c) Hg).
Qed.

Example fourInRow_reachable : reachable fourInRow.
Proof. apply reachable_clicks, reach_init. Qed.

(** ** More about the reachable states *)

Section Reachable.
Implicit Types (g : Game) (b : list (list Z)) (r c : Z).

(** To show that a property holds of every reachable state it is enough
    to look at [init], at [resetGame] and at [placeStone] after an
    accepted click: a click that is not accepted changes nothing. *)
Lemma reachable_induction (P : Game → Prop) :
  (∀ tt wt mh, P (init (loaded tt wt mh))) →
  (∀ g, reachable g → P g → P (resetGame g)) →
  (∀ g r c, reachable g → P g → accepted g r c → P (placeStone r c g)) →
  ∀ g, reachable g → P g.
Proof.
  intros Hinit Hreset Hplace g Hg.
  induction Hg as [tt wt mh | g o Hg IH]; [apply Hinit|].
  destruct o as [r c|]; simpl; [|by apply Hreset].
  destruct (accepted_dec g r c) as [Hacc|Hno].
  - rewrite click_accepted by done. by apply Hplace.
  - by rewrite click_rejected.
Qed.

Lemma reachable_wf g : reachable g → wf_board (board g) = true.
Proof. intros Hg. by apply reachable_inv. Qed.

Lemma reachable_players_turn g : reachable g → players_turn g.
Proof. intros Hg. by apply reachable_inv. Qed.

Lemma cells_ok_empty :
  cells_ok (replicate (Z.to_nat BOARD_SIZE) (replicate (Z.to_nat BOARD_SIZE) 0)).
Proof.
  intros r c v Hv. left.
  assert (isValid r c = true) as Hrc.
  { by apply (readCell_valid _ r c v (wf_board_initBoardState newGame)). }
  rewrite readCell_empty_board in Hv by done. unfold Empty. congruence.
Qed.

Lemma cells_ok_writeCell b r c v :
  cells_ok b → is_Some (readCell b r c) →
  v = Empty ∨ v = Black ∨ v = White → cells_ok (writeCell b r c v).
Proof.
  intros Hok Hcell Hv r' c' w Hw.
  destruct (decide ((r', c') = (r, c))) as [[= -> ->]|Hne].
  - rewrite readCell_writeCell_eq in Hw by done. congruence.
  - destruct Hcell as [old Hold]. apply readCell_Some in Hold as (Hr & Hc & _).
    rewrite readCell_writeCell_ne in Hw by done. by eapply Hok.
Qed.

Lemma reachable_cells_ok g : reachable g → cells_ok (board g).
Proof.
  revert g. apply reachable_induction.
  - intros tt wt mh. apply cells_ok_empty.
  - intros g _ _. apply cells_ok_empty.
  - intros g r c Hg IH Hacc. rewrite board_placeStone.
    destruct Hacc as (_ & _ & _ & Hcell).
    apply cells_ok_writeCell; [done | by rewrite Hcell |].
    right. apply (reachable_players_turn g Hg).
Qed.

Lemma reachable_turnText g :
  reachable g →
  turnText g
  = if currentPlayer g =? 1 then "흑돌(Black) 차례" else "백돌(White) 차례".
Proof.
  revert g. apply reachable_induction; try done.
  intros g r c _ IH _. unfold placeStone. simpl.
  by destruct (checkWin _ _ _ _).
Qed.
End Reachable.

(** ** Lines on the board during a game *)

Section Lines.
Implicit Types (g : Game) (b : list (list Z)) (r c player : Z).

(** [checkWin] at the stone just placed is the scan of the whole board. *)
Lemma scan_after_move b r c player :
  isValid r c = true → readCell b r c = Some Empty →
  boardHasLine b player = false →
  boardHasLine (writeCell b r c player) player
  = checkWin (writeCell b r c player) r c player.
Proof.
  intros Hrc Hempty Hnone.
  pose proof Hrc as Hrc'. apply isValid_spec in Hrc' as [Hr Hc].
  apply eq_true_iff_eq. split.
  - intros Hline. apply boardHasLine_true in Hline as (r0 & c0 & d & Hd & Hall).
    destruct (new_line_through_stone b r c player r0 c0 d) as (k & Hk & Heq);
      [lia | lia | done..|].
    by apply (line_through_stone_wins _ r c player r0 c0 d k).
  - apply checkWin_line. apply marked_spec. simpl. split; [done|].
    apply readCell_writeCell_eq. by rewrite Hempty.
Qed.

(** A stone of one player gives the other player no line. *)
Lemma scan_other_player b r c v player :
  readCell b r c = Some Empty → player ≠ v →
  boardHasLine b player = false →
  boardHasLine (writeCell b r c v) player = false.
Proof.
  intros Hempty Hne Hnone. apply not_true_iff_false. intros Hline.
  apply not_true_iff_false in Hnone. apply Hnone.
  pose proof Hempty as Hcell. apply readCell_Some in Hcell as (Hr & Hc & _).
  apply boardHasLine_true in Hline as (r0 & c0 & d & Hd & Hall).
  apply boardHasLine_true. exists r0, c0, d. split; [done|].
  intros i Hi. specialize (Hall i Hi).
  destruct (decide ((r0 + d.1 * i, c0 + d.2 * i) = (r, c))) as [Heq|Hother].
  - rewrite Heq in Hall. apply marked_spec in Hall as [_ Hcell]. simpl in Hcell.
    rewrite readCell_writeCell_eq in Hcell by (by rewrite Hempty). congruence.
  - by rewrite marked_writeCell_ne in Hall.
Qed.

Lemma boardHasLine_empty player :
  boardHasLine (replicate (Z.to_nat BOARD_SIZE) (replicate (Z.to_nat BOARD_SIZE) 0))
               player = true → player = Empty.
Proof.
  intros Hline. apply boardHasLine_true in Hline as (r0 & c0 & d & _ & Hall).
  specialize (Hall 0 ltac:(lia)). apply marked_spec in Hall as [Hv Hcell].
  rewrite readCell_empty_board in Hcell by done. unfold Empty. congruence.
Qed.

Lemma lines_inv_fresh g : lines_inv (initBoardState g).
Proof.
  split; [|done]. intros _.
  split; apply not_true_iff_false; intros Hline;
    apply boardHasLine_empty in Hline; discriminate.
Qed.

Lemma reachable_lines_inv g : reachable g → lines_inv g.
Proof.
  revert g. apply reachable_induction.
  - intros tt wt mh. apply lines_inv_fresh.
  - intros g _ _. apply lines_inv_fresh.
  - intros g r c Hg [IH _] Hacc.
    pose proof (reachable_players_turn g Hg) as Hturn.
    pose proof Hacc as (Hactive & Hr & Hc & Hcell).
    destruct (IH Hactive) as [Hblack Hwhite].
    assert (isValid r c = true) as Hrc by (by apply isValid_spec).
    assert (boardHasLine (writeCell (board g) r c (currentPlayer g))
                         (currentPlayer g)
            = checkWin (writeCell (board g) r c (currentPlayer g)) r c
                       (currentPlayer g)) as Hmine.
    { apply scan_after_move; [done..|]. by destruct Hturn as [-> | ->]. }
    assert (boardHasLine (writeCell (board g) r c (currentPlayer g))
                         (opponent (currentPlayer g)) = false) as Htheirs.
    { apply scan_other_player; [done| |];
        destruct Hturn as [-> | ->]; done. }
    destruct (checkWin (writeCell (board g) r c (currentPlayer g)) r c
                       (currentPlayer g)) eqn:Hwin.
    + rewrite placeStone_win by done. split; [done|]. by intros _.
    + rewrite placeStone_no_win by done. split; [|simpl; congruence].
      intros _. simpl. destruct Hturn as [Hp | Hp]; rewrite Hp in *; by split.
Qed.
End Lines.

(** ** Counting the stones *)

Section Parity.
Implicit Types (g : Game) (b : list (list Z)) (r c : Z).

Lemma count_occ_insert (row : list Z) (i : nat) (old v p : Z) :
  row !! i = Some old →
  (count_occ Z.eq_dec (<[i:=v]> row) p + (if decide (old = p) then 1 else 0)
   = count_occ Z.eq_dec row p + (if decide (v = p) then 1 else 0))%nat.
Proof.
  revert i. induction row as [|x row IH]; intros [|i] Hi; simpl in *;
    try discriminate.
  - injection Hi as ->.
    destruct (Z.eq_dec v p), (Z.eq_dec old p); repeat case_decide;
      (lia || congruence).
  - specialize (IH i Hi).
    destruct (Z.eq_dec x p), (decide (old = p)), (decide (v = p)); lia.
Qed.

Lemma sum_list_with_alter {A} (f : A → nat) (h : A → A) (l : list A) j x :
  l !! j = Some x →
  (sum_list_with f (alter h j l) + f x = sum_list_with f l + f (h x))%nat.
Proof.
  revert j. induction l as [|y l IH]; intros [|j] Hj; csimpl in *;
    try discriminate.
  - injection Hj as ->. fold (sum_list_with f l). lia.
  - specialize (IH j Hj). fold (sum_list_with f l).
    fold (sum_list_with f (alter h j l)). lia.
Qed.

Lemma countMarks_writeCell b r c old v p :
  readCell b r c = Some old →
  (countMarks (writeCell b r c v) p + (if decide (old = p) then 1 else 0)
   = countMarks b p + (if decide (v = p) then 1 else 0))%nat.
Proof.
  intros Hold. apply readCell_Some in Hold as (_ & _ & row & Hrow & Hcol).
  unfold countMarks, writeCell.
  pose proof (sum_list_with_alter (λ row, count_occ Z.eq_dec row p)
                (λ row, <[Z.to_nat c := v]> row) b _ _ Hrow) as Hsum.
  pose proof (count_occ_insert row _ old v p Hcol) as Hcount.
  simpl in Hsum. lia.
Qed.

Lemma reachable_parity g : reachable g → parity_inv g.
Proof.
  revert g. apply reachable_induction; try done.
  intros g r c Hg IH Hacc. unfold parity_inv in *.
  pose proof (reachable_players_turn g Hg) as Hturn.
  destruct Hacc as (Hactive & _ & _ & Hcell). rewrite Hactive in IH.
  pose proof (countMarks_writeCell _ r c _ (currentPlayer g) Black Hcell) as Hb.
  pose proof (countMarks_writeCell _ r c _ (currentPlayer g) White Hcell) as Hw.
  rewrite decide_False in Hb by done. rewrite decide_False in Hw by done.
  destruct (checkWin (writeCell (board g) r c (currentPlayer g)) r c
                     (currentPlayer g)) eqn:Hwin.
  - rewrite placeStone_win by done. simpl.
    destruct Hturn as [Hp | Hp]; rewrite Hp in *; simpl in *;
      repeat case_decide; try done; lia.
  - rewrite placeStone_no_win by done. simpl. rewrite Hactive.
    destruct Hturn as [Hp | Hp]; rewrite Hp in *; simpl in *;
      repeat case_decide; try done; lia.
Qed.
End Parity.

(** ** What checkWin looks at *)

Section Window.
Implicit Types (b : list (list Z)) (r c player : Z) (d : Z * Z).

(** With the player's mark at the origin, a true answer comes from five
    marks in a row through the origin. *)
Lemma checkWin_window b r c player :
  marked b player (r, c) = true →
  checkWin b r c player = true →
  ∃ d k, d ∈ directions ∧ 0 ≤ k ≤ 4 ∧
    ∀ i, 0 ≤ i ≤ 4 →
      marked b player (r + d.1 * (i - k), c + d.2 * (i - k)) = true.
Proof.
  intros Horigin Hwin.
  apply checkWin_true in Hwin as (d & Hd & Hcount).
  rewrite countDirection_eq in Hcount.
  set (f := consecutive b player (forward r c d.1 d.2) 4 1) in *.
  set (g := consecutive b player (backward r c d.1 d.2) 4 1) in *.
  pose proof (consecutive_le b player (backward r c d.1 d.2) 4 1) as Hg4.
  fold g in Hg4.
  exists d, (Z.of_nat g). split; [done|]. split; [lia|]. intros i Hi.
  destruct (Z.lt_trichotomy i (Z.of_nat g)) as [Hlt | [Heq | Hgt]].
  - pose proof (consecutive_marked b player (backward r c d.1 d.2) 4 1
                  (Z.of_nat g - i - 1)) as Hm.
    fold g in Hm. specialize (Hm ltac:(lia)). unfold backward in Hm.
    replace (r + d.1 * (i - Z.of_nat g))
      with (r - d.1 * (1 + (Z.of_nat g - i - 1))) by lia.
    replace (c + d.2 * (i - Z.of_nat g))
      with (c - d.2 * (1 + (Z.of_nat g - i - 1))) by lia.
    exact Hm.
  - rewrite Heq, Z.sub_diag, !Z.mul_0_r, !Z.add_0_r. exact Horigin.
  - pose proof (consecutive_marked b player (forward r c d.1 d.2) 4 1
                  (i - Z.of_nat g - 1)) as Hm.
    fold f in Hm. specialize (Hm ltac:(lia)). unfold forward in Hm.
    replace (i - Z.of_nat g) with (1 + (i - Z.of_nat g - 1)) by lia.
    exact Hm.
Qed.

Lemma window_checkWin b r c player d k :
  d ∈ directions → 0 ≤ k ≤ 4 →
  (∀ i, 0 ≤ i ≤ 4 →
     marked b player (r + d.1 * (i - k), c + d.2 * (i - k)) = true) →
  checkWin b r c player = true.
Proof.
  intros Hd Hk Hall.
  apply (line_through_stone_wins b r c player (r - d.1 * k) (c - d.2 * k) d k);
    [done | done | f_equal; lia |].
  intros i Hi.
  replace (r - d.1 * k + d.1 * i) with (r + d.1 * (i - k)) by lia.
  replace (c - d.2 * k + d.2 * i) with (c + d.2 * (i - k)) by lia.
  by apply Hall.
Qed.

Lemma consecutive_ext b b' player pos n i :
  (∀ j, 0 ≤ j < Z.of_nat n →
     marked b player (pos (i + j)) = marked b' player (pos (i + j))) →
  consecutive b player pos n i = consecutive b' player pos n i.
Proof.
  revert i. induction n as [|n IH]; intros i Hsame; simpl; [done|].
  rewrite <- (Z.add_0_r i) at 1 3. rewrite Hsame, Z.add_0_r by lia.
  destruct (marked b' player (pos i)); [|done].
  f_equal. apply IH. intros j Hj.
  replace (i + 1 + j) with (i + (1 + j)) by lia. apply Hsame. lia.
Qed.

Lemma marked_same_cell b b' player p :
  readCell b p.1 p.2 = readCell b' p.1 p.2 →
  marked b player p = marked b' player p.
Proof. intros Hsame. unfold marked, cellIs. by rewrite Hsame. Qed.

Lemma countDirection_local b b' r c player d :
  (∀ i, -4 ≤ i ≤ 4 → i ≠ 0 →
     readCell b (r + d.1 * i) (c + d.2 * i)
     = readCell b' (r + d.1 * i) (c + d.2 * i)) →
  countDirection b r c player d.1 d.2 = countDirection b' r c player d.1 d.2.
Proof.
  intros Hsame. rewrite !countDirection_eq.
  rewrite (consecutive_ext b b' player (forward r c d.1 d.2)),
          (consecutive_ext b b' player (backward r c d.1 d.2)); [done| |].
  - intros j Hj. apply marked_same_cell. unfold backward. simpl.
    replace (r - d.1 * (1 + j)) with (r + d.1 * (- (1 + j))) by lia.
    replace (c - d.2 * (1 + j)) with (c + d.2 * (- (1 + j))) by lia.
    apply Hsame; lia.
  - intros j Hj. apply marked_same_cell. unfold forward. simpl.
    apply Hsame; lia.
Qed.
End Window.

(** ** The stones on the canvas *)

Section Drawing.
Implicit Types (b : list (list Z)) (r c : Z).

Lemma elem_of_drawStones b (s : stone) :
  s ∈ drawStones b ↔
  ∃ r c v, isValid r c = true ∧ readCell b r c = Some v ∧ v ≠ Empty
           ∧ s = drawStone r c v.
Proof.
  unfold drawStones. rewrite list_elem_of_bind. split.
  - intros (r & Hs & Hr). apply list_elem_of_bind in Hs as (c & Hs & Hc).
    apply elem_of_indices in Hr, Hc.
    destruct (readCell b r c) as [v|] eqn:Hv; [|by apply elem_of_nil in Hs].
    destruct (Z.eqb_spec v 0) as [|Hne]; simpl in Hs;
      [by apply elem_of_nil in Hs|].
    apply list_elem_of_singleton in Hs. exists r, c, v.
    split; [by apply isValid_spec|]. done.
  - intros (r & c & v & Hrc & Hv & Hne & ->).
    apply isValid_spec in Hrc as [Hr Hc].
    exists r. split; [|by apply elem_of_indices].
    apply list_elem_of_bind. exists c. split; [|by apply elem_of_indices].
    rewrite Hv. destruct (Z.eqb_spec v 0) as [|_]; [done|]. simpl.
    by apply list_elem_of_singleton.
Qed.

Lemma drawStone_centre r c v r' c' v' :
  drawStone r c v = drawStone r' c' v' → r = r' ∧ c = c'.
Proof.
  unfold drawStone, PADDING, CELL_SIZE, GRID_SIZE, BOARD_SIZE.
  intros [= Hx Hy _]. change (600 `div` 15) with 40 in *.
  change (40 `div` 2) with 20 in *. lia.
Qed.

Lemma drawStone_pixels r c v :
  drawStone r c v = mkStone (20 + 40 * c) (20 + 40 * r) (v =? 1).
Proof.
  unfold drawStone, PADDING, CELL_SIZE, GRID_SIZE, BOARD_SIZE.
  change (600 `div` 15) with 40. change (40 `div` 2) with 20.
  f_equal; lia.
Qed.

Lemma NoDup_indices : NoDup indices.
Proof.
  unfold indices. apply NoDup_fmap_2; [|apply NoDup_seq].
  intros x y. apply Nat2Z.inj.
Qed.

Lemma NoDup_drawStones b : NoDup (drawStones b).
Proof.
  unfold drawStones. apply NoDup_bind; [| |apply NoDup_indices].
  - intros r1 r2 s _ _ Hs1 Hs2.
    apply list_elem_of_bind in Hs1 as (c1 & Hs1 & _).
    apply list_elem_of_bind in Hs2 as (c2 & Hs2 & _).
    destruct (readCell b r1 c1) as [v1|]; [|by apply elem_of_nil in Hs1].
    destruct (readCell b r2 c2) as [v2|]; [|by apply elem_of_nil in Hs2].
    destruct (negb (v1 =? 0)); [|by apply elem_of_nil in Hs1].
    destruct (negb (v2 =? 0)); [|by apply elem_of_nil in Hs2].
    apply list_elem_of_singleton in Hs1, Hs2. subst s.
    by apply drawStone_centre in Hs2 as [? _].
  - intros r _. apply NoDup_bind; [| |apply NoDup_indices].
    + intros c1 c2 s _ _ Hs1 Hs2.
      destruct (readCell b r c1) as [v1|]; [|by apply elem_of_nil in Hs1].
      destruct (readCell b r c2) as [v2|]; [|by apply elem_of_nil in Hs2].
      destruct (negb (v1 =? 0)); [|by apply elem_of_nil in Hs1].
      destruct (negb (v2 =? 0)); [|by apply elem_of_nil in Hs2].
      apply list_elem_of_singleton in Hs1, Hs2. subst s.
      by apply drawStone_centre in Hs2 as [_ ?].
    + intros c _. destruct (readCell b r c) as [v|]; [|constructor].
      destruct (negb (v =? 0)); [apply NoDup_singleton | constructor].
Qed.
End Drawing.

(** ** A full board *)

Section Full.
Implicit Types (g : Game) (b : list (list Z)) (r c : Z).

Lemma boardFullb_spec b : boardFullb b = true → boardFull b.
Proof.
  unfold boardFullb. rewrite forallb_forall. intros Hfull r c Hrc Hcell.
  apply isValid_spec in Hrc as [Hr Hc].
  specialize (Hfull r). rewrite <- list_elem_of_In, elem_of_indices in Hfull.
  specialize (Hfull Hr). rewrite forallb_forall in Hfull.
  specialize (Hfull c). rewrite <- list_elem_of_In, elem_of_indices in Hfull.
  specialize (Hfull Hc). unfold cellIs in Hfull. rewrite Hcell in Hfull.
  done.
Qed.

Lemma click_full g r c : boardFull (board g) → click r c g = g.
Proof.
  intros Hfull. apply click_rejected. intros (_ & Hr & Hc & Hcell).
  by apply (Hfull r c); [apply isValid_spec|].
Qed.

Lemma clicks_full g ps : boardFull (board g) → clicks g ps = g.
Proof.
  intros Hfull. induction ps as [|[r c] ps IH]; [done|].
  unfold clicks in *. simpl. by rewrite click_full.
Qed.
End Full.

(** ** Further properties of the engine *)

(** X1.  Whatever is clicked and however often the game is reset, the
    board stays a 15x15 grid, every cell holds 0, 1 or 2, and the player
    to move is 1 or 2. *)
Theorem reachable_state_well_formed g :
  reachable g →
  wf_board (board g) = true
  ∧ (∀ r c, isValid r c = true →
       readCell (board g) r c = Some Empty
       ∨ readCell (board g) r c = Some Black
       ∨ readCell (board g) r c = Some White)
  ∧ (currentPlayer g = Black ∨ currentPlayer g = White).
Proof.
  intros Hg. split; [by apply reachable_wf|].
  split; [|by apply reachable_players_turn].
  intros r c Hrc.
  destruct (wf_readCell (board g) r c (reachable_wf g Hg) Hrc) as [v Hv].
  rewrite Hv. destruct (reachable_cells_ok g Hg r c v Hv) as [-> | [-> | ->]];
    auto.
Qed.

(** X2.  The turn text always names the current player; after a win it
    therefore still names the winner, whose turn did not pass. *)
Theorem turn_text_names_current_player g :
  reachable g →
  (currentPlayer g = Black → turnText g = "흑돌(Black) 차례")
  ∧ (currentPlayer g = White → turnText g = "백돌(White) 차례").
Proof.
  intros Hg. rewrite (reachable_turnText g Hg).
  split; by intros ->.
Qed.

(** X3.  No win goes unnoticed: as long as the game is active neither
    player has five in a row anywhere on the board, along any of the four
    axes. *)
Theorem active_game_has_no_line g :
  reachable g → gameActive g = true →
  ¬ fiveInRow (board g) Black ∧ ¬ fiveInRow (board g) White.
Proof.
  intros Hg Hactive. pose proof (reachable_wf g Hg) as Hwf.
  destruct (reachable_lines_inv g Hg) as [Hinv _].
  destruct (Hinv Hactive) as [Hblack Hwhite].
  split; by apply not_fiveInRow_boardHasLine.
Qed.

(** X4.  The game is over only for a reason: in every reachable state
    that is not active the current player has five in a row on the
    board, the opponent has none, the modal is shown and the winner text
    names the current player. *)
Theorem finished_game_has_winner g :
  reachable g → gameActive g = false →
  boardHasLine (board g) (currentPlayer g) = true
  ∧ boardHasLine (board g) (opponent (currentPlayer g)) = false
  ∧ modalHidden g = false
  ∧ (currentPlayer g = Black → winnerText g = "흑돌(Black) 승리!")
  ∧ (currentPlayer g = White → winnerText g = "백돌(White) 승리!").
Proof.
  intros Hg Hover.
  destruct (reachable_lines_inv g Hg) as [_ Hinv].
  destruct (Hinv Hover) as (Hmine & Htheirs & Hmodal & Htext).
  rewrite Htext. repeat split; try done; by intros ->.
Qed.

(** X5.  The players alternate, Black first: while the game is active
    the two have as many stones when it is Black's turn and Black has one
    more when it is White's; once it is over the winner, who moved last,
    is level (White) or one ahead (Black). *)
Theorem stones_alternate g :
  reachable g →
  (gameActive g = true → currentPlayer g = Black →
   countMarks (board g) Black = countMarks (board g) White)
  ∧ (gameActive g = true → currentPlayer g = White →
     countMarks (board g) Black = S (countMarks (board g) White))
  ∧ (gameActive g = false → currentPlayer g = Black →
     countMarks (board g) Black = S (countMarks (board g) White))
  ∧ (gameActive g = false → currentPlayer g = White →
     countMarks (board g) Black = countMarks (board g) White).
Proof.
  intros Hg. pose proof (reachable_parity g Hg) as Hpar.
  unfold parity_inv in Hpar.
  repeat split; intros Hactive Hp; rewrite Hactive, Hp in Hpar; simpl in Hpar;
    lia.
Qed.

(** X6.  Asked about a cell that holds the player's mark, [checkWin]
    answers true exactly when that cell is one of five cells in a row,
    along one of the four axes, that all hold the player's mark. *)
Theorem checkWin_at_own_stone b r c player :
  wf_board b = true → readCell b r c = Some player →
  (checkWin b r c player = true ↔
   ∃ (a : axis) (k : Z), 0 ≤ k ≤ 4 ∧
     ∀ i, 0 ≤ i ≤ 4 →
       readCell b (r + (axisStep a).1 * (i - k)) (c + (axisStep a).2 * (i - k))
       = Some player).
Proof.
  intros Hwf Hcell.
  assert (marked b player (r, c) = true) as Horigin.
  { by apply marked_readCell. }
  split.
  - intros Hwin.
    destruct (checkWin_window b r c player Horigin Hwin) as (d & k & Hd & Hk & Hall).
    destruct (directions_axisStep d Hd) as [a <-].
    exists a, k. split; [done|]. intros i Hi.
    apply marked_readCell; [done|]. by apply Hall.
  - intros (a & k & Hk & Hall).
    apply (window_checkWin b r c player (axisStep a) k);
      [apply axisStep_directions | done |].
    intros i Hi. apply marked_readCell; [done|]. by apply Hall.
Qed.

(** X7.  [checkWin] reads only the cells up to four steps from (r, c)
    along the four axes, and not (r, c) itself: two boards that agree on
    those thirty-two cells get the same answer. *)
Theorem checkWin_is_local b b' r c player :
  wf_board b = true → wf_board b' = true →
  (∀ d i, d ∈ directions → -4 ≤ i ≤ 4 → i ≠ 0 →
     readCell b (r + d.1 * i) (c + d.2 * i)
     = readCell b' (r + d.1 * i) (c + d.2 * i)) →
  checkWin b r c player = checkWin b' r c player.
Proof.
  intros _ _ Hsame. unfold checkWin. rewrite !checkDirections_existsb.
  unfold directions. cbn [existsb].
  rewrite (countDirection_local b b' r c player (0, 1)),
          (countDirection_local b b' r c player (1, 0)),
          (countDirection_local b b' r c player (1, 1)),
          (countDirection_local b b' r c player (1, -1)); [done|..];
    intros i Hi Hne; apply Hsame; try done;
    apply directions_spec; auto.
Qed.

(** X8.  The engine knows no draw: on a full board every click is
    turned away, so a game that filled the board without a line stays
    active and stuck until it is reset. *)
Theorem full_board_is_stuck g ps :
  wf_board (board g) = true → boardFull (board g) →
  clicks g ps = g.
Proof. intros _ Hfull. by apply clicks_full. Qed.

(** X9.  [drawBoard] draws the position: a dark stone centred on the
    intersection of every cell Black holds, a light one for every cell
    White holds, nothing on an empty cell, and no stone twice. *)
Theorem drawBoard_draws_the_position g r c :
  reachable g → isValid r c = true →
  (mkStone (20 + 40 * c) (20 + 40 * r) true ∈ drawStones (board g)
   ↔ readCell (board g) r c = Some Black)
  ∧ (mkStone (20 + 40 * c) (20 + 40 * r) false ∈ drawStones (board g)
     ↔ readCell (board g) r c = Some White)
  ∧ NoDup (drawStones (board g)).
Proof.
  intros Hg Hrc. pose proof (reachable_cells_ok g Hg) as Hok.
  split; [|split; [|apply NoDup_drawStones]].
  - rewrite elem_of_drawStones. split.
    + intros (r' & c' & v & _ & Hv & Hne & Heq).
      assert (mkStone (20 + 40 * c) (20 + 40 * r) true = drawStone r c 1)
        as Hs by (by rewrite drawStone_pixels).
      rewrite Hs in Heq. pose proof Heq as Hpos. apply drawStone_centre in Hpos as [-> ->].
      injection Heq as Hdark. symmetry in Hdark. apply Z.eqb_eq in Hdark.
      by subst v.
    + intros Hv. exists r, c, Black. rewrite drawStone_pixels. by repeat split.
  - rewrite elem_of_drawStones. split.
    + intros (r' & c' & v & _ & Hv & Hne & Heq).
      assert (mkStone (20 + 40 * c) (20 + 40 * r) false = drawStone r c 2)
        as Hs by (by rewrite drawStone_pixels).
      rewrite Hs in Heq. pose proof Heq as Hpos. apply drawStone_centre in Hpos as [-> ->].
      injection Heq as Hdark.
      destruct (Hok r' c' v Hv) as [-> | [-> | ->]]; done.
    + intros Hv. exists r, c, White. rewrite drawStone_pixels. by repeat split.
Qed.

(** *** The further properties on sample games *)

Lemma reachable_click g r c : reachable g → reachable (click r c g).
Proof. intros Hg. apply (reach_step g (Click r c) Hg). Qed.

Lemma blackWon_reachable : reachable blackWon.
Proof. unfold blackWon. apply reachable_click, fourInRow_reachable. Qed.

Lemma fullGame_reachable : reachable fullGame.
Proof. unfold fullGame. apply reachable_clicks, reach_init. Qed.

Lemma reachable_state_well_formed_witness :
  wf_board (board fourInRow) = true
  ∧ (currentPlayer fourInRow = Black ∨ currentPlayer fourInRow = White).
Proof.
  destruct (reachable_state_well_formed fourInRow fourInRow_reachable)
    as (Hwf & _ & Hturn).
  by split.
Defined.

Lemma turn_text_names_current_player_witness :
  currentPlayer blackWon = Black ∧ turnText blackWon = "흑돌(Black) 차례".
Proof.
  split; [reflexivity|].
  destruct (turn_text_names_current_player blackWon blackWon_reachable)
    as [Hblack _].
  apply Hblack. reflexivity.
Defined.

Lemma active_game_has_no_line_witness :
  gameActive fourInRow = true
  ∧ ¬ fiveInRow (board fourInRow) Black
  ∧ fiveInRow (board blackWon) Black
  ∧ gameActive blackWon = false.
Proof.
  assert (fiveInRow (board blackWon) Black) as Hfive.
  { exists Horizontal, 7, 3. intros i Hi.
    assert (i = 0 ∨ i = 1 ∨ i = 2 ∨ i = 3 ∨ i = 4) as Hcases by lia.
    destruct Hcases as [-> | [-> | [-> | [-> | ->]]]]; vm_compute; reflexivity. }
  split; [vm_compute; reflexivity|]. split.
  - apply (active_game_has_no_line fourInRow fourInRow_reachable).
    vm_compute. reflexivity.
  - split; [exact Hfive|].
    destruct (gameActive blackWon) eqn:Hactive; [|reflexivity].
    destruct (active_game_has_no_line blackWon blackWon_reachable Hactive)
      as [Hnone _].
    destruct (Hnone Hfive).
Defined.

Lemma finished_game_has_winner_witness :
  boardHasLine (board blackWon) (currentPlayer blackWon) = true
  ∧ modalHidden blackWon = false.
Proof.
  destruct (finished_game_has_winner blackWon blackWon_reachable eq_refl)
    as (Hline & _ & Hmodal & _).
  by split.
Defined.

Lemma stones_alternate_witness :
  countMarks (board fullGame) Black = S (countMarks (board fullGame) White).
Proof.
  destruct (stones_alternate fullGame fullGame_reachable) as (_ & Hwhite & _).
  apply Hwhite; reflexivity.
Defined.

Lemma checkWin_at_own_stone_witness :
  readCell (board blackWon) 7 5 = Some Black
  ∧ checkWin (board blackWon) 7 5 Black = true.
Proof.
  split; [vm_compute; reflexivity|].
  apply (checkWin_at_own_stone (board blackWon) 7 5 Black);
    [vm_compute; reflexivity | vm_compute; reflexivity |].
  exists Horizontal, 2. split; [lia|]. intros i Hi.
  assert (i = 0 ∨ i = 1 ∨ i = 2 ∨ i = 3 ∨ i = 4) as Hcases by lia.
  destruct Hcases as [-> | [-> | [-> | [-> | ->]]]]; vm_compute; reflexivity.
Defined.

Lemma checkWin_is_local_witness :
  checkWin (board newGame) 7 7 Black
  = checkWin (writeCell (board newGame) 7 7 White) 7 7 Black.
Proof.
  apply (checkWin_is_local (board newGame)
           (writeCell (board newGame) 7 7 White) 7 7 Black);
    [reflexivity | reflexivity |].
  intros d i Hd Hi Hne. symmetry. apply readCell_writeCell_ne; [lia | lia |].
  apply directions_spec in Hd as [-> | [-> | [-> | ->]]]; simpl;
    intros Heq; injection Heq; lia.
Defined.

Lemma full_board_is_stuck_witness :
  reachable fullGame ∧ gameActive fullGame = true
  ∧ boardFull (board fullGame)
  ∧ clicks fullGame [(7, 7); (0, 0); (14, 14)] = fullGame.
Proof.
  split; [exact fullGame_reachable|]. split; [reflexivity|].
  split; [apply boardFullb_spec; vm_compute; reflexivity|].
  apply (full_board_is_stuck fullGame [(7, 7); (0, 0); (14, 14)]);
    [vm_compute; reflexivity | apply boardFullb_spec; vm_compute; reflexivity].
Defined.

Lemma drawBoard_draws_the_position_witness :
  readCell (board fourInRow) 7 3 = Some Black
  ∧ mkStone 140 300 true ∈ drawStones (board fourInRow).
Proof.
  split; [reflexivity|].
  destruct (drawBoard_draws_the_position fourInRow 7 3 fourInRow_reachable eq_refl)
    as ((_ & Hdrawn) & _).
  apply Hdrawn. reflexivity.
Defined.

End Omok.

(** * The tree diagram generator: proofs *)

Module TreeLayoutFacts.
Import TreeLayout.

Lemma menu_induction (P : menu → Prop) :
  (∀ lbl cs, Forall P cs → P (Menu lbl cs)) → ∀ m, P m.
Proof.
  intros Hstep. fix IH 1. intros [lbl cs]. apply Hstep.
  induction cs as [|c cs IHcs]; constructor; [apply IH | exact IHcs].
Qed.

(** ** Spans *)

Lemma span_Menu lbl cs :
  span (Menu lbl cs) = match cs with [] => nodeWidth | _ => room cs end.
Proof.
  destruct cs as [|c cs]; [done|]. unfold room, spans.
  cbn [span length]. unfold horizontalGap. lia.
Qed.

Lemma span_bounds m : nodeWidth ≤ span m ∧ (50 | span m).
Proof.
  induction m as [lbl cs IH] using menu_induction. rewrite span_Menu.
  destruct cs as [|c cs]; [split; [done | by exists 3]|].
  assert (∀ l, Forall (λ m, nodeWidth ≤ span m ∧ (50 | span m)) l →
               0 ≤ spans l ∧ (50 | spans l)) as Hsum.
  { induction 1 as [|a l [Ha Hdiv] _ [IHge IHdiv]]; unfold spans; simpl.
    - split; [done | by exists 0].
    - fold (spans l). unfold nodeWidth in *. split; [lia|].
      by apply Z.divide_add_r. }
  inversion IH as [|? ? [Hc Hcdiv] Hcs]; subst.
  destruct (Hsum cs Hcs) as [Hge Hdiv]. unfold room, spans. simpl.
  fold (spans cs). unfold nodeWidth, horizontalGap in *. split; [lia|].
  apply Z.divide_add_r; [by apply Z.divide_add_r|].
  apply Z.divide_mul_l. by exists 1.
Qed.

Lemma span_ge m : nodeWidth ≤ span m.
Proof. apply span_bounds. Qed.

Lemma span_even m : span m `mod` 2 = 0.
Proof.
  destruct (span_bounds m) as [_ [k Hk]]. rewrite Hk.
  replace (k * 50) with (k * 25 * 2) by lia. apply Z.mod_mul. done.
Qed.

(** ** The three passes against the layout in one pass *)

Lemma widthOf_assignPositions t left :
  widthOf (assignPositions t left) = widthOf t.
Proof. by destruct t. Qed.

Lemma passes_children cs :
  Forall passes_ok cs →
  ∀ d pid i, ∃ ts0 ts1,
    forEachState (λ child, traverse child d pid) cs i
    = (ts0, i + Z.of_nat (sizes cs))
    ∧ length ts0 = length cs
    ∧ (∀ len index acc,
         index + Z.of_nat (length cs) = len →
         addWidths calculateWidth len ts0 index acc
         = (ts1, acc + room cs))
    ∧ ∀ left,
        placeEach assignPositions ts1 left ≫= nodesOf
        = placeAll place d pid cs i left.
Proof.
  induction 1 as [|c cs Hc _ IH]; intros d pid i.
  - exists [], []. unfold sizes, room, spans. simpl.
    split; [f_equal; lia|]. split; [done|]. split; [|done].
    intros len index acc _. f_equal. lia.
  - destruct (Hc d pid i) as (t0 & t1 & Htraverse & Hwidth & Hw & Hplace).
    destruct (IH d pid (i + Z.of_nat (size c)))
      as (ts0 & ts1 & Hchildren & Hlen & Hwidths & Hplaces).
    exists (t0 :: ts0), (t1 :: ts1).
    split; [|split; [|split]].
    + cbn [forEachState]. rewrite Htraverse, Hchildren.
      unfold sizes. cbn [sum_list_with]. f_equal. lia.
    + simpl. by rewrite Hlen.
    + intros len index acc Hindex. cbn [addWidths]. rewrite Hwidth.
      rewrite (Hwidths len (index + 1)) by (cbn [length] in Hindex; lia).
      f_equal. unfold room, spans. cbn [foldr length]. fold (spans cs).
      cbn [length] in Hindex. unfold horizontalGap.
      destruct (Z.ltb_spec index (len - 1)); lia.
    + intros left. cbn [placeEach placeAll].
      rewrite bind_cons, Hplace, widthOf_assignPositions, Hw, Hplaces.
      done.
Qed.

Lemma passes_all m : passes_ok m.
Proof.
  induction m as [lbl cs IH] using menu_induction. intros d pid i.
  destruct (passes_children cs IH (d + 1) (Some i) (i + 1))
    as (ts0 & ts1 & Hchildren & Hlen & Hwidths & Hplaces).
  destruct cs as [|c cs].
  - destruct ts0; [|discriminate]. exists (T0 (mkNode i pid lbl d 0 (d * 130)) []),
      (T1 (mkNode i pid lbl d 0 (d * 130)) nodeWidth []).
    by repeat split.
  - exists (T0 (mkNode i pid lbl d 0 (d * 130)) ts0),
      (T1 (mkNode i pid lbl d 0 (d * 130)) (span (Menu lbl (c :: cs))) ts1).
    rewrite span_Menu.
    assert (nodeWidth ≤ room (c :: cs)) as Hroom.
    { pose proof (span_ge (Menu lbl (c :: cs))) as Hge.
      by rewrite span_Menu in Hge. }
    split; [|split; [|split; [done|]]].
    + cbn [traverse]. rewrite Hchildren. f_equal.
      unfold sizes. cbn [size sum_list_with]. lia.
    + cbn [calculateWidth]. rewrite Hlen.
      destruct (Z.eqb_spec (Z.of_nat (length (c :: cs))) 0) as [Hzero|_];
        [discriminate|].
      rewrite (Hwidths _ 0 0) by lia. rewrite Z.add_0_l. f_equal. lia.
    + intros left. cbn [assignPositions nodesOf place].
      rewrite Hplaces, (span_Menu lbl (c :: cs)). done.
Qed.

(** The array of [calculateLayout] is the layout in one pass. *)
Lemma layoutNodes_place m :
  layoutNodes (calculateLayout m) = place m 0 None 0 0.
Proof.
  destruct (passes_all m 0 None 0) as (t0 & t1 & Htraverse & Hwidth & _ & Hplace).
  unfold calculateLayout. rewrite Htraverse, Hwidth. simpl. apply Hplace.
Qed.

(** ** Where the objects lie *)

Lemma within_children cs :
  Forall (λ m, ∀ d pid i left n, n ∈ place m d pid i left →
                 within i (Z.of_nat (size m)) left (span m) d (levels m) n) cs →
  ∀ d pid i left n, n ∈ placeAll place d pid cs i left →
    within i (Z.of_nat (sizes cs)) left (room cs) d (levelsAll cs - 1) n.
Proof.
  induction 1 as [|c cs Hc Hcs IH]; intros d pid i left n Hn.
  - by apply elem_of_nil in Hn.
  - cbn [placeAll] in Hn. apply elem_of_app in Hn as [Hn | Hn].
    + specialize (Hc d pid i left n Hn).
      assert (0 ≤ spans cs) as Hspans.
      { clear. induction cs as [|a cs IHcs]; [done|]. unfold spans. simpl.
        fold (spans cs). pose proof (span_ge a). unfold nodeWidth in *. lia. }
      unfold within, room, spans, sizes, levelsAll in *.
      cbn [foldr length sum_list_with].
      unfold horizontalGap, nodeWidth in *. lia.
    + specialize (IH d pid _ _ n Hn).
      assert (cs ≠ []) as Hne by (intros ->; by apply elem_of_nil in Hn).
      pose proof (span_ge c) as Hspan.
      unfold within, room, spans, sizes, levelsAll in *.
      destruct cs as [|a cs]; [done|].
      cbn [foldr length sum_list_with] in *.
      unfold horizontalGap, nodeWidth in *. lia.
Qed.

Lemma levels_Menu lbl cs : levels (Menu lbl cs) = levelsAll cs.
Proof. done. Qed.

Lemma levelsAll_nonneg cs : 0 ≤ levelsAll cs.
Proof.
  induction cs as [|c cs IH]; unfold levelsAll in *; simpl; lia.
Qed.

Lemma within_place m d pid i left n :
  n ∈ place m d pid i left →
  within i (Z.of_nat (size m)) left (span m) d (levels m) n.
Proof.
  revert d pid i left n. induction m as [lbl cs IH] using menu_induction.
  intros d pid i left n Hn. cbn [place] in Hn.
  pose proof (span_ge (Menu lbl cs)) as Hspan.
  pose proof (span_even (Menu lbl cs)) as Heven.
  pose proof (levelsAll_nonneg cs) as Hlevels.
  apply elem_of_cons in Hn as [-> | Hn].
  - unfold within. rewrite levels_Menu. cbn [fst snd id x y depth].
    cbn [size]. unfold nodeWidth in *.
    repeat split; Z.to_euclidean_division_equations; lia.
  - pose proof (within_children cs IH (d + 1) (Some i) (i + 1) left n Hn) as Hin.
    assert (cs ≠ []) as Hne by (intros ->; by apply elem_of_nil in Hn).
    rewrite span_Menu, levels_Menu. destruct cs as [|c cs]; [done|].
    unfold within in *. cbn [size]. fold (sizes (c :: cs)). lia.
Qed.

(** ** Ids *)

Lemma ids_children cs :
  Forall (λ m, ∀ d pid i left,
            (λ n, id n.1) <$> place m d pid i left
            = seqZ i (Z.of_nat (size m))) cs →
  ∀ d pid i left,
    (λ n, id n.1) <$> placeAll place d pid cs i left
    = seqZ i (Z.of_nat (sizes cs)).
Proof.
  induction 1 as [|c cs Hc _ IH]; intros d pid i left; [done|].
  cbn [placeAll]. rewrite fmap_app, Hc, IH.
  unfold sizes. cbn [sum_list_with]. fold (sizes cs).
  rewrite Nat2Z.inj_add, seqZ_app by lia. done.
Qed.

Lemma ids_place m d pid i left :
  (λ n, id n.1) <$> place m d pid i left = seqZ i (Z.of_nat (size m)).
Proof.
  revert d pid i left. induction m as [lbl cs IH] using menu_induction.
  intros d pid i left. cbn [place size]. fold (sizes cs).
  rewrite fmap_cons, (ids_children cs IH).
  rewrite Nat2Z.inj_succ, (seqZ_cons i) by lia.
  simpl. f_equal. f_equal; lia.
Qed.

(** ** Parents *)

Lemma has_parent_weaken l l' pid d n :
  (∀ p, p ∈ l → p ∈ l') → has_parent l pid d n → has_parent l' pid d n.
Proof.
  intros Hsub [Hroot | (p & Hp & Hrest)]; [by left|].
  right. exists p. split; [by apply Hsub | done].
Qed.

Lemma parents_children cs :
  Forall (λ m, ∀ d pid i left n, n ∈ place m d pid i left →
                 has_parent (place m d pid i left) pid d n) cs →
  ∀ d pid i left n, n ∈ placeAll place d pid cs i left →
    has_parent (placeAll place d pid cs i left) pid d n.
Proof.
  induction 1 as [|c cs Hc _ IH]; intros d pid i left n Hn.
  - by apply elem_of_nil in Hn.
  - cbn [placeAll] in *. apply elem_of_app in Hn as [Hn | Hn].
    + eapply has_parent_weaken; [|by apply Hc].
      intros p Hp. apply elem_of_app. by left.
    + eapply has_parent_weaken; [|by apply IH].
      intros p Hp. apply elem_of_app. by right.
Qed.

Lemma within_all cs d pid i left n :
  n ∈ placeAll place d pid cs i left →
  within i (Z.of_nat (sizes cs)) left (room cs) d (levelsAll cs - 1) n.
Proof.
  apply within_children. apply Forall_forall. intros m _ d' pid' i' left' n'.
  apply within_place.
Qed.

Lemma parents_place m d pid i left n :
  n ∈ place m d pid i left → has_parent (place m d pid i left) pid d n.
Proof.
  revert d pid i left n. induction m as [lbl cs IH] using menu_induction.
  intros d pid i left n Hn. cbn [place] in *.
  apply elem_of_cons in Hn as [-> | Hn]; [by left|]. right.
  destruct (parents_children cs IH (d + 1) (Some i) (i + 1) left n Hn)
    as [[Hpid Hd] | (p & Hp & Hrest)].
  - exists (mkNode i pid lbl d (left + span (Menu lbl cs) / 2 - 75) (d * 130),
            span (Menu lbl cs)).
    split; [by left|]. simpl. split; [done|]. split; [done|].
    pose proof (within_all cs (d + 1) (Some i) (i + 1) left n Hn) as (Hid & _).
    lia.
  - exists p. split; [by right | done].
Qed.

(** ** Gaps between the objects of one level *)

Lemma separated_children cs :
  Forall (λ m, ∀ d pid i left, separated (place m d pid i left)) cs →
  ∀ d pid i left, separated (placeAll place d pid cs i left).
Proof.
  induction 1 as [|c cs Hc _ IH]; intros d pid i left n1 n2 H1 H2 Hid Hdepth.
  - by apply elem_of_nil in H1.
  - cbn [placeAll] in H1, H2.
    apply elem_of_app in H1 as [H1 | H1]; apply elem_of_app in H2 as [H2 | H2].
    + by apply (Hc d pid i left).
    + apply within_place in H1 as (_ & _ & Hright & _).
      apply within_all in H2 as (_ & Hleft & _).
      unfold nodeWidth, horizontalGap in *. lia.
    + apply within_all in H1 as (Hid1 & _).
      apply within_place in H2 as (Hid2 & _). lia.
    + by eapply IH.
Qed.

Lemma separated_place m d pid i left : separated (place m d pid i left).
Proof.
  revert d pid i left. induction m as [lbl cs IH] using menu_induction.
  intros d pid i left n1 n2 H1 H2 Hid Hdepth. cbn [place] in H1, H2.
  apply elem_of_cons in H1 as [-> | H1]; apply elem_of_cons in H2 as [-> | H2].
  - simpl in Hid. lia.
  - apply within_all in H2 as (_ & _ & _ & Hd & _). simpl in Hdepth. lia.
  - apply within_all in H1 as (Hid1 & _). simpl in Hid. lia.
  - by apply (separated_children cs IH (d + 1) (Some i) (i + 1) left).
Qed.

(** ** The objects at the right and at the bottom *)

Lemma rightmost_children cs :
  cs ≠ [] →
  Forall (λ m, ∀ d pid i left, ∃ n, n ∈ place m d pid i left
                 ∧ x n.1 + nodeWidth = left + span m) cs →
  ∀ d pid i left, ∃ n, n ∈ placeAll place d pid cs i left
                       ∧ x n.1 + nodeWidth = left + room cs.
Proof.
  intros Hne Hall. induction Hall as [|c cs Hc _ IH]; [done|].
  intros d pid i left. cbn [placeAll]. destruct cs as [|a cs].
  - destruct (Hc d pid i left) as (n & Hn & Hx). exists n.
    split; [apply elem_of_app; by left|].
    unfold room, spans. simpl. unfold horizontalGap. lia.
  - destruct (IH ltac:(done) d pid (i + Z.of_nat (size c))
                 (left + span c + horizontalGap)) as (n & Hn & Hx).
    exists n. split; [apply elem_of_app; by right|].
    rewrite Hx. unfold room, spans. cbn [foldr length].
    unfold horizontalGap. lia.
Qed.

Lemma rightmost m d pid i left :
  ∃ n, n ∈ place m d pid i left ∧ x n.1 + nodeWidth = left + span m.
Proof.
  revert d pid i left. induction m as [lbl cs IH] using menu_induction.
  intros d pid i left. destruct cs as [|c cs].
  - eexists. split; [by left|]. simpl. unfold nodeWidth.
    Z.to_euclidean_division_equations. lia.
  - destruct (rightmost_children (c :: cs) ltac:(done) IH (d + 1) (Some i)
                (i + 1) left) as (n & Hn & Hx).
    exists n. split; [cbn [place]; by right|]. by rewrite span_Menu.
Qed.

Lemma deepest_children cs :
  cs ≠ [] →
  Forall (λ m, ∀ d pid i left, ∃ n, n ∈ place m d pid i left
                 ∧ depth n.1 = d + levels m) cs →
  ∀ d pid i left, ∃ n, n ∈ placeAll place d pid cs i left
                       ∧ depth n.1 = d + levelsAll cs - 1.
Proof.
  intros Hne Hall. induction Hall as [|c cs Hc _ IH]; [done|].
  intros d pid i left. cbn [placeAll].
  pose proof (levelsAll_nonneg cs) as Hcs.
  destruct (decide (levelsAll cs ≤ levels c + 1)) as [Hfirst | Hrest].
  - destruct (Hc d pid i left) as (n & Hn & Hd). exists n.
    split; [apply elem_of_app; by left|].
    unfold levelsAll in *. cbn [foldr]. lia.
  - assert (cs ≠ []) as Hne'.
    { intros ->. unfold levelsAll in Hrest. simpl in Hrest.
      pose proof (levelsAll_nonneg (match c with Menu _ l => l end)).
      destruct c. rewrite levels_Menu in Hrest. simpl in *. lia. }
    destruct (IH Hne' d pid (i + Z.of_nat (size c))
                 (left + span c + horizontalGap)) as (n & Hn & Hd).
    exists n. split; [apply elem_of_app; by right|].
    unfold levelsAll in *. cbn [foldr]. lia.
Qed.

Lemma deepest m d pid i left :
  ∃ n, n ∈ place m d pid i left ∧ depth n.1 = d + levels m.
Proof.
  revert d pid i left. induction m as [lbl cs IH] using menu_induction.
  intros d pid i left. destruct cs as [|c cs].
  - eexists. split; [by left|]. simpl. lia.
  - destruct (deepest_children (c :: cs) ltac:(done) IH (d + 1) (Some i)
                (i + 1) left) as (n & Hn & Hd).
    exists n. split; [cbn [place]; by right|]. rewrite levels_Menu. lia.
Qed.

Lemma foldl_max_spec rest a :
  a ≤ foldl Z.max a rest
  ∧ (∀ b, b ∈ rest → b ≤ foldl Z.max a rest)
  ∧ (foldl Z.max a rest = a ∨ foldl Z.max a rest ∈ rest).
Proof.
  revert a. induction rest as [|b rest IH]; intros a; simpl.
  - split; [done|]. split; [|by left]. intros b Hb. by apply elem_of_nil in Hb.
  - destruct (IH (Z.max a b)) as (Hge & Hall & Hmem).
    split; [lia|]. split.
    + intros b' Hb'. apply elem_of_cons in Hb' as [-> | Hb']; [lia | by apply Hall].
    + destruct Hmem as [Heq | Hin]; [|right; by right].
      rewrite Heq. destruct (Z.max_spec a b) as [[_ ->] | [_ ->]];
        [right; by left | by left].
Qed.

Lemma Math_max_spec values v :
  v ∈ values → (∀ a, a ∈ values → a ≤ v) → Math_max values = Some v.
Proof.
  destruct values as [|a rest]; intros Hv Hmax; [by apply elem_of_nil in Hv|].
  simpl. f_equal.
  destruct (foldl_max_spec rest a) as (Hge & Hall & Hmem).
  assert (foldl Z.max a rest ∈ a :: rest) as Hin.
  { destruct Hmem as [-> | Hin]; [by left | by right]. }
  assert (v ≤ foldl Z.max a rest).
  { apply elem_of_cons in Hv as [-> | Hv]; [done | by apply Hall]. }
  specialize (Hmax _ Hin). lia.
Qed.

Lemma calculateLayout_place m :
  calculateLayout m
  = mkLayout (Math_max ((λ n, x n.1 + nodeWidth) <$> place m 0 None 0 0))
             (Math_max ((λ n, y n.1 + nodeHeight) <$> place m 0 None 0 0))
             (place m 0 None 0 0).
Proof.
  destruct (passes_all m 0 None 0) as (t0 & t1 & Htraverse & Hwidth & _ & Hplace).
  unfold calculateLayout. rewrite Htraverse, Hwidth. simpl.
  by rewrite Hplace.
Qed.

(** ** Connectors *)

Lemma unique_by_id (l : list (node * Z)) a b :
  NoDup ((λ n, id n.1) <$> l) → a ∈ l → b ∈ l → id a.1 = id b.1 → a = b.
Proof.
  induction l as [|n l IH]; intros Hnd Ha Hb Hid; [by apply elem_of_nil in Ha|].
  rewrite fmap_cons in Hnd. apply NoDup_cons in Hnd as [Hfresh Hnd].
  apply elem_of_cons in Ha as [-> | Ha]; apply elem_of_cons in Hb as [-> | Hb].
  - done.
  - exfalso. apply Hfresh. rewrite Hid. by apply (list_elem_of_fmap_2 (λ n, id n.1)).
  - exfalso. apply Hfresh. rewrite <- Hid.
    by apply (list_elem_of_fmap_2 (λ n, id n.1)).
  - by apply IH.
Qed.

Lemma find_parent (nodes : list (node * Z)) p :
  NoDup ((λ n, id n.1) <$> nodes) → p ∈ nodes →
  List.find (λ q, id q.1 =? id p.1) nodes = Some p.
Proof.
  intros Hnd Hp.
  destruct (List.find (λ q, id q.1 =? id p.1) nodes) as [q|] eqn:Hfind.
  - apply List.find_some in Hfind as [Hq Hid].
    apply list_elem_of_In in Hq. apply Z.eqb_eq in Hid.
    f_equal. by apply (unique_by_id nodes).
  - apply list_elem_of_In in Hp.
    pose proof (List.find_none _ _ Hfind p Hp) as Hno. simpl in Hno.
    by rewrite Z.eqb_refl in Hno.
Qed.

Lemma parents_all cs d pid i left n :
  n ∈ placeAll place d pid cs i left →
  has_parent (placeAll place d pid cs i left) pid d n.
Proof.
  apply parents_children. apply Forall_forall.
  intros m _ d' pid' i' left' n'. apply parents_place.
Qed.

Lemma children_have_parent cs d j i left n :
  n ∈ placeAll place d (Some j) cs i left → is_Some (parentId n.1).
Proof.
  intros Hn. destruct (parents_all cs d (Some j) i left n Hn)
    as [[-> _] | (p & _ & -> & _)]; eauto.
Qed.

Lemma filter_all {A} (P : A → Prop) `{∀ a, Decision (P a)} (l : list A) :
  (∀ a, a ∈ l → P a) → filter P l = l.
Proof.
  induction l as [|a l IH]; intros Hall; [done|].
  rewrite filter_cons_True by (apply Hall; by left).
  f_equal. apply IH. intros b Hb. apply Hall. by right.
Qed.

Lemma length_place m d pid i left :
  length (place m d pid i left) = size m.
Proof.
  rewrite <- (length_fmap (λ n, id n.1)), ids_place, length_seqZ. lia.
Qed.

Lemma non_roots m :
  length (filter (λ n, is_Some (parentId n.1)) (place m 0 None 0 0))
  = (size m - 1)%nat.
Proof.
  pose proof (length_place m 0 None 0 0) as Hlen.
  destruct m as [lbl cs]. cbn [place] in *.
  rewrite filter_cons_False by (simpl; by intros [? ?]).
  rewrite filter_all by (intros n Hn; by eapply children_have_parent).
  cbn [length] in Hlen. lia.
Qed.

Lemma non_roots_tail m :
  ∃ root rest,
    place m 0 None 0 0 = root :: rest
    ∧ parentId root.1 = None
    ∧ filter (λ n, is_Some (parentId n.1)) (place m 0 None 0 0) = rest.
Proof.
  destruct m as [lbl cs]. cbn [place].
  eexists _, _. split; [reflexivity|]. split; [reflexivity|].
  rewrite filter_cons_False by (simpl; by intros [? ?]).
  apply filter_all. intros n Hn. by eapply children_have_parent.
Qed.

Lemma connectorsFrom_spec (nodes todo : list (node * Z)) :
  NoDup ((λ n, id n.1) <$> nodes) →
  (∀ n, n ∈ todo →
     parentId n.1 = None
     ∨ ∃ p, p ∈ nodes ∧ parentId n.1 = Some (id p.1) ∧ y n.1 = y p.1 + 130) →
  ∃ cs, connectorsFrom nodes todo = Some cs
    ∧ Forall2 (λ child c, ∃ parent,
                 parent ∈ nodes
                 ∧ parentId child.1 = Some (id parent.1)
                 ∧ y child.1 = y parent.1 + 130
                 ∧ c = mkConnector (x parent.1 + 75) (y parent.1 + 50)
                                   (y parent.1 + 90)
                                   (x child.1 + 75) (y child.1))
        (filter (λ n, is_Some (parentId n.1)) todo) cs.
Proof.
  intros Hnd. induction todo as [|n todo IH]; intros Hparents.
  - exists []. split; [done|]. constructor.
  - destruct IH as (cs & Hcs & Hall).
    { intros n' Hn'. apply Hparents. by right. }
    cbn [connectorsFrom].
    destruct (Hparents n ltac:(by left)) as [Hroot | (p & Hp & Hpid & Hy)].
    + rewrite Hroot. exists cs. split; [done|].
      rewrite filter_cons_False; [done|]. rewrite Hroot. by intros [? ?].
    + rewrite Hpid, (find_parent nodes p Hnd Hp), Hcs. simpl.
      eexists. split; [done|].
      rewrite filter_cons_True by (rewrite Hpid; eauto).
      constructor; [|done]. exists p.
      split; [done|]. split; [done|]. split; [done|].
      unfold nodeWidth, nodeHeight. rewrite Hy. f_equal;
        Z.to_euclidean_division_equations; lia.
Qed.

(** ** Parents above their children *)

Lemma placeAll_roots cs d pid i left :
  cs ≠ [] →
  ∃ c1 c2, c1 ∈ placeAll place d pid cs i left
    ∧ c2 ∈ placeAll place d pid cs i left
    ∧ parentId c1.1 = pid ∧ parentId c2.1 = pid
    ∧ 2 * x c1.1 + nodeWidth ≤ 2 * left + room cs
    ∧ 2 * left + room cs ≤ 2 * x c2.1 + nodeWidth.
Proof.
  intros Hne. revert i left. induction cs as [|c cs IH]; [done|].
  intros i left. cbn [placeAll].
  assert (∃ n, n ∈ place c d pid i left ∧ parentId n.1 = pid
               ∧ 2 * x n.1 + nodeWidth = 2 * left + span c) as (n & Hn & Hpid & Hx).
  { destruct c as [lbl l]. eexists. split; [by left|]. split; [done|].
    cbn [fst x]. pose proof (span_even (Menu lbl l)). unfold nodeWidth.
    Z.to_euclidean_division_equations. lia. }
  pose proof (span_ge c) as Hspan.
  destruct cs as [|a cs].
  - exists n, n. rewrite app_nil_r. unfold room, spans. cbn [foldr length].
    unfold horizontalGap, nodeWidth in *. repeat split; try done; lia.
  - destruct (IH ltac:(done) (i + Z.of_nat (size c))
                 (left + span c + horizontalGap))
      as (_ & c2 & _ & Hc2 & _ & Hpid2 & _ & Hx2).
    exists n, c2.
    assert (0 ≤ spans (a :: cs)) as Hrest.
    { clear. induction (a :: cs) as [|b l IHl]; [done|]. unfold spans. simpl.
      fold (spans l). pose proof (span_ge b). unfold nodeWidth in *. lia. }
    unfold room, spans in *. cbn [foldr length] in *.
    unfold horizontalGap, nodeWidth in *.
    repeat split; try done; try (apply elem_of_app; auto); lia.
Qed.

Lemma flanked_children cs :
  Forall (λ m, ∀ d pid i left, (∀ j, pid = Some j → j < i) →
                 flanked (place m d pid i left)) cs →
  ∀ d pid i left, (∀ j, pid = Some j → j < i) →
    flanked (placeAll place d pid cs i left).
Proof.
  induction 1 as [|c0 cs Hc _ IH]; intros d pid i left Hpid p c Hp Hc' Hparent.
  - by apply elem_of_nil in Hp.
  - cbn [placeAll] in *.
    assert (∀ l n : list (node * Z), flanked l → (∀ q, q ∈ l → q ∈ n) →
              p ∈ l → c ∈ l →
              ∃ c1 c2 : node * Z, c1 ∈ n ∧ c2 ∈ n
                ∧ parentId c1.1 = Some (id p.1) ∧ parentId c2.1 = Some (id p.1)
                ∧ x c1.1 ≤ x p.1 ≤ x c2.1) as Hlift.
    { intros l n Hl Hsub Hpl Hcl.
      destruct (Hl p c Hpl Hcl Hparent) as (c1 & c2 & H1 & H2 & Hrest).
      exists c1, c2. split; [by apply Hsub|]. split; [by apply Hsub | done]. }
    apply elem_of_app in Hp as [Hp | Hp]; apply elem_of_app in Hc' as [Hc' | Hc'].
    + eapply Hlift; [by apply Hc | | done..].
      intros q Hq. apply elem_of_app. by left.
    + exfalso. pose proof (within_place _ _ _ _ _ _ Hp) as (Hidp & _).
      destruct (parents_all _ _ _ _ _ _ Hc')
        as [[Hroot _] | (q & Hq & Hpq & _)].
      * rewrite Hparent in Hroot. symmetry in Hroot.
        specialize (Hpid _ Hroot). lia.
      * apply within_all in Hq as (Hidq & _). rewrite Hparent in Hpq.
        injection Hpq as Hpq. lia.
    + exfalso. pose proof (within_all _ _ _ _ _ _ Hp) as (Hidp & _).
      destruct (parents_place _ _ _ _ _ _ Hc')
        as [[Hroot _] | (q & Hq & Hpq & _)].
      * rewrite Hparent in Hroot. symmetry in Hroot.
        specialize (Hpid _ Hroot). lia.
      * apply within_place in Hq as (Hidq & _). rewrite Hparent in Hpq.
        injection Hpq as Hpq. lia.
    + eapply Hlift; [apply IH | | done..].
      * intros j Hj. specialize (Hpid j Hj). lia.
      * intros q Hq. apply elem_of_app. by right.
Qed.

Lemma flanked_place m d pid i left :
  (∀ j, pid = Some j → j < i) → flanked (place m d pid i left).
Proof.
  revert d pid i left. induction m as [lbl cs IH] using menu_induction.
  intros d pid i left Hpid p c Hp Hc Hparent. cbn [place] in *.
  apply elem_of_cons in Hc as [-> | Hc].
  { exfalso. simpl in Hparent.
    assert (i ≤ id p.1) as Hidp.
    { apply elem_of_cons in Hp as [-> | Hp]; [simpl; lia|].
      apply within_all in Hp as (Hidp & _). lia. }
    specialize (Hpid _ Hparent). lia. }
  apply elem_of_cons in Hp as [-> | Hp].
  - assert (cs ≠ []) as Hne by (intros ->; by apply elem_of_nil in Hc).
    destruct (placeAll_roots cs (d + 1) (Some i) (i + 1) left Hne)
      as (c1 & c2 & H1 & H2 & Hp1 & Hp2 & Hx1 & Hx2).
    exists c1, c2. split; [by right|]. split; [by right|].
    split; [done|]. split; [done|]. cbn [fst x].
    pose proof (span_even (Menu lbl cs)) as Heven.
    rewrite span_Menu in *. destruct cs as [|a cs]; [done|].
    unfold nodeWidth in *. Z.to_euclidean_division_equations. lia.
  - assert (flanked (placeAll place (d + 1) (Some i) cs (i + 1) left)) as Hall.
    { apply flanked_children; [|intros j [= <-]; lia].
      eapply Forall_impl; [exact IH|]. intros m Hm d' pid' i' left' Hpid'.
      by apply Hm. }
    destruct (Hall p c Hp Hc Hparent) as (c1 & c2 & H1 & H2 & Hrest).
    exists c1, c2. split; [by right|]. split; [by right | done].
Qed.

(** ** Properties of the layout *)

(** X10.  The objects of the array carry the ids 0, 1, 2, ... in the
    order of the array, one object for every entry of the menu. *)
Theorem layout_ids m :
  (λ n, id n.1) <$> layoutNodes (calculateLayout m)
  = seqZ 0 (Z.of_nat (size m))
  ∧ length (layoutNodes (calculateLayout m)) = size m.
Proof.
  rewrite layoutNodes_place. split; [apply ids_place | apply length_place].
Qed.

(** X11.  Every object lies 130 below the top for each level of its
    depth.  The root has no parent and depth 0; every other object names
    as its parent an object of the array with a smaller id, one level
    up. *)
Theorem layout_parents m n :
  n ∈ layoutNodes (calculateLayout m) →
  y n.1 = 130 * depth n.1
  ∧ ((id n.1 = 0 ∧ parentId n.1 = None ∧ depth n.1 = 0)
     ∨ ∃ p, p ∈ layoutNodes (calculateLayout m)
            ∧ parentId n.1 = Some (id p.1)
            ∧ id p.1 < id n.1
            ∧ depth n.1 = depth p.1 + 1).
Proof.
  rewrite layoutNodes_place. intros Hn.
  pose proof (within_place m 0 None 0 0 n Hn) as (_ & _ & _ & _ & Hy & _).
  split; [done|].
  destruct (parents_place m 0 None 0 0 n Hn) as [[Hnone Hd] | (p & Hp & Hrest)].
  - left. split; [|done]. destruct m as [lbl cs]. cbn [place] in Hn.
    apply elem_of_cons in Hn as [-> | Hn]; [done|].
    apply children_have_parent in Hn as [j Hj]. congruence.
  - right. exists p. split; [done|]. tauto.
Qed.

(** X12.  Objects of the same depth do not overlap: the rectangles of
    two of them, 150 wide, are at least the gap of 50 apart. *)
Theorem layout_no_overlap m n1 n2 :
  n1 ∈ layoutNodes (calculateLayout m) →
  n2 ∈ layoutNodes (calculateLayout m) →
  n1 ≠ n2 → depth n1.1 = depth n2.1 →
  x n1.1 + nodeWidth + horizontalGap ≤ x n2.1
  ∨ x n2.1 + nodeWidth + horizontalGap ≤ x n1.1.
Proof.
  rewrite layoutNodes_place. intros H1 H2 Hne Hdepth.
  pose proof (separated_place m 0 None 0 0) as Hsep.
  destruct (Z.lt_trichotomy (id n1.1) (id n2.1)) as [Hlt | [Heq | Hgt]].
  - left. by apply Hsep.
  - exfalso. apply Hne. apply (unique_by_id (place m 0 None 0 0)); [|done..].
    rewrite ids_place. apply NoDup_seqZ.
  - right. by apply Hsep.
Qed.

(** X13.  The layout's width is the room the root takes and its height
    the bottom of the deepest level; every object lies inside that box,
    and every width is even and at least a node wide, so that the
    halvings of [assignPositions] are exact. *)
Theorem layout_bounding_box m :
  layoutWidth (calculateLayout m) = Some (span m)
  ∧ layoutHeight (calculateLayout m) = Some (130 * levels m + nodeHeight)
  ∧ ∀ n, n ∈ layoutNodes (calculateLayout m) →
      0 ≤ x n.1 ∧ x n.1 + nodeWidth ≤ span m
      ∧ 0 ≤ y n.1 ∧ y n.1 + nodeHeight ≤ 130 * levels m + nodeHeight
      ∧ nodeWidth ≤ n.2 ∧ n.2 `mod` 2 = 0.
Proof.
  rewrite calculateLayout_place. cbn [layoutWidth layoutHeight layoutNodes].
  split; [|split].
  - apply Math_max_spec.
    + destruct (rightmost m 0 None 0 0) as (n & Hn & Hx).
      apply list_elem_of_fmap. exists n. split; [|done]. simpl. lia.
    + intros a Ha. apply list_elem_of_fmap in Ha as (n & -> & Hn).
      apply within_place in Hn as (_ & _ & Hright & _). simpl. lia.
  - apply Math_max_spec.
    + destruct (deepest m 0 None 0 0) as (n & Hn & Hd).
      pose proof (within_place m 0 None 0 0 n Hn) as (_ & _ & _ & _ & Hy & _).
      apply list_elem_of_fmap. exists n. split; [|done]. simpl. lia.
    + intros a Ha. apply list_elem_of_fmap in Ha as (n & -> & Hn).
      apply within_place in Hn as (_ & _ & _ & Hd & Hy & _). simpl. lia.
  - intros n Hn.
    apply within_place in Hn as (_ & Hleft & Hright & Hd & Hy & Hw & Heven).
    unfold nodeHeight. repeat split; try done; lia.
Qed.

(** X14.  On the array of a layout [drawConnections] finds every parent
    it looks for.  The array is the root, which has no parent, followed
    by the other objects; the connectors drawn are, in the same order,
    exactly one for each of these other objects: from the middle of the
    lower edge of the object's parent down 40, across, and down another
    40 to the middle of the object's own upper edge. *)
Theorem layout_connectors m :
  ∃ root rest cs,
    layoutNodes (calculateLayout m) = root :: rest
    ∧ parentId root.1 = None
    ∧ drawConnections (layoutNodes (calculateLayout m)) = Some cs
    ∧ length cs = (size m - 1)%nat
    ∧ Forall2 (λ child c, ∃ parent,
                 parent ∈ layoutNodes (calculateLayout m)
                 ∧ parentId child.1 = Some (id parent.1)
                 ∧ y child.1 = y parent.1 + 130
                 ∧ c = mkConnector (x parent.1 + 75) (y parent.1 + 50)
                                   (y parent.1 + 90)
                                   (x child.1 + 75) (y child.1))
        rest cs.
Proof.
  rewrite layoutNodes_place. unfold drawConnections.
  destruct (non_roots_tail m) as (root & rest & Hnodes & Hroot & Hrest).
  destruct (connectorsFrom_spec (place m 0 None 0 0) (place m 0 None 0 0))
    as (cs & Hcs & Hall).
  { rewrite ids_place. apply NoDup_seqZ. }
  { intros n Hn.
    pose proof (within_place m 0 None 0 0 n Hn) as (_ & _ & _ & _ & Hy & _).
    destruct (parents_place m 0 None 0 0 n Hn)
      as [[Hnone _] | (p & Hp & Hpid & Hd & _)]; [by left|].
    right. exists p. split; [done|]. split; [done|].
    pose proof (within_place m 0 None 0 0 p Hp) as (_ & _ & _ & _ & Hyp & _).
    lia. }
  rewrite Hrest in Hall.
  exists root, rest, cs. split; [done|]. split; [done|]. split; [done|].
  split; [|done].
  rewrite <- (Forall2_length _ _ _ Hall), <- Hrest. apply non_roots.
Qed.

(** X20.  Every object that has a child stands above its children:
    one of its children is not to its right and one is not to its left
    (an only child is both, and then stands exactly below its parent). *)
Theorem layout_parent_above_children m p c :
  p ∈ layoutNodes (calculateLayout m) →
  c ∈ layoutNodes (calculateLayout m) →
  parentId c.1 = Some (id p.1) →
  ∃ c1 c2, c1 ∈ layoutNodes (calculateLayout m)
    ∧ c2 ∈ layoutNodes (calculateLayout m)
    ∧ parentId c1.1 = Some (id p.1) ∧ parentId c2.1 = Some (id p.1)
    ∧ x c1.1 ≤ x p.1 ≤ x c2.1.
Proof.
  rewrite layoutNodes_place. apply flanked_place. intros j Hj. discriminate.
Qed.

(** ** The layout of the sample menu *)

Example sampleMenu_layout :
  layoutWidth (calculateLayout sampleMenu) = Some 750
  ∧ layoutHeight (calculateLayout sampleMenu) = Some 310
  ∧ (λ n, (label n.1, x n.1, y n.1)) <$> layoutNodes (calculateLayout sampleMenu)
    = [("Home", 300, 0); ("Products", 100, 130); ("Phones", 0, 260);
       ("Laptops", 200, 260); ("About", 400, 130); ("Team", 400, 260);
       ("Contact", 600, 130)].
Proof. repeat split. Qed.

Lemma layout_parents_witness :
  (mkNode 3 (Some 1) "Laptops" 2 200 260, 150)
    ∈ layoutNodes (calculateLayout sampleMenu)
  ∧ (mkNode 1 (Some 0) "Products" 1 100 130, 350)
    ∈ layoutNodes (calculateLayout sampleMenu)
  ∧ y (mkNode 3 (Some 1) "Laptops" 2 200 260)
    = 130 * depth (mkNode 3 (Some 1) "Laptops" 2 200 260).
Proof.
  assert ((mkNode 3 (Some 1) "Laptops" 2 200 260, 150)
            ∈ layoutNodes (calculateLayout sampleMenu)) as Hn.
  { apply (list_elem_of_lookup_2 _ 3). reflexivity. }
  split; [exact Hn|]. split; [apply (list_elem_of_lookup_2 _ 1); reflexivity|].
  exact (proj1 (layout_parents sampleMenu _ Hn)).
Defined.

Lemma layout_no_overlap_witness :
  0 + nodeWidth + horizontalGap ≤ 200 ∨ 200 + nodeWidth + horizontalGap ≤ 0.
Proof.
  apply (layout_no_overlap sampleMenu
           (mkNode 2 (Some 1) "Phones" 2 0 260, 150)
           (mkNode 3 (Some 1) "Laptops" 2 200 260, 150)).
  - apply (list_elem_of_lookup_2 _ 2). reflexivity.
  - apply (list_elem_of_lookup_2 _ 3). reflexivity.
  - discriminate.
  - reflexivity.
Defined.

Lemma layout_bounding_box_witness :
  layoutWidth (calculateLayout sampleMenu) = Some (span sampleMenu)
  ∧ 600 + nodeWidth ≤ span sampleMenu.
Proof.
  destruct (layout_bounding_box sampleMenu) as (Hwidth & _ & Hall).
  split; [exact Hwidth|].
  apply (Hall (mkNode 6 (Some 0) "Contact" 1 600 130, 150)).
  apply (list_elem_of_lookup_2 _ 6). reflexivity.
Defined.

Lemma layout_parent_above_children_witness :
  ∃ c1 c2 : node * Z,
    c1 ∈ layoutNodes (calculateLayout sampleMenu)
    ∧ c2 ∈ layoutNodes (calculateLayout sampleMenu)
    ∧ parentId c1.1 = Some 1 ∧ parentId c2.1 = Some 1
    ∧ x c1.1 ≤ 100 ≤ x c2.1.
Proof.
  apply (layout_parent_above_children sampleMenu
           (mkNode 1 (Some 0) "Products" 1 100 130, 350)
           (mkNode 2 (Some 1) "Phones" 2 0 260, 150)).
  - apply (list_elem_of_lookup_2 _ 1). reflexivity.
  - apply (list_elem_of_lookup_2 _ 2). reflexivity.
  - reflexivity.
Defined.

End TreeLayoutFacts.

(** * The reaction-time test: proofs *)

Module ReactionTestFacts.
Import ReactionTest.

(** ** Sorting the leaderboard *)

Lemma insertByScore_perm e l : insertByScore e l ≡ₚ e :: l.
Proof.
  induction l as [|a l IH]; simpl; [done|].
  destruct (score e <=? score a); [done|].
  rewrite IH. apply Permutation_swap.
Qed.

Lemma sortByScore_perm l : sortByScore l ≡ₚ l.
Proof.
  induction l as [|a l IH]; simpl; [done|].
  by rewrite insertByScore_perm, IH.
Qed.

Lemma insertByScore_sorted e l :
  StronglySorted byScore l → StronglySorted byScore (insertByScore e l).
Proof.
  induction 1 as [|a l Hl IH Ha]; simpl.
  - repeat constructor.
  - destruct (Z.leb_spec (score e) (score a)) as [Hle | Hgt].
    + constructor; [by constructor|]. constructor; [done|].
      eapply Forall_impl; [exact Ha|]. unfold byScore. intros b Hb. lia.
    + constructor; [done|].
      rewrite insertByScore_perm. constructor; [unfold byScore; lia | done].
Qed.

Lemma sortByScore_sorted l : StronglySorted byScore (sortByScore l).
Proof.
  induction l as [|a l IH]; simpl; [constructor|].
  by apply insertByScore_sorted.
Qed.

Lemma sortedByScore_spec l :
  sortedByScore l = true ↔ StronglySorted byScore l.
Proof.
  induction l as [|a l IH]; [split; [constructor | done]|].
  cbn [sortedByScore]. destruct l as [|b l].
  - split; [repeat constructor | done].
  - rewrite andb_true_iff, Z.leb_le, IH. split.
    + intros [Hab Hl]. constructor; [done|]. constructor; [done|].
      apply StronglySorted_inv in Hl as [_ Hb].
      eapply Forall_impl; [exact Hb|]. unfold byScore. intros c Hc. lia.
    + intros Hsorted. apply StronglySorted_inv in Hsorted as [Hl Ha].
      split; [|done]. by apply Forall_inv in Ha.
Qed.

(** Entries of equal score keep their order: the sort is stable. *)
Lemma insertByScore_stable e l (s : Z) :
  filter (λ a, score a = s) (insertByScore e l)
  = filter (λ a, score a = s) (e :: l).
Proof.
  induction l as [|a l IH]; simpl; [done|].
  destruct (Z.leb_spec (score e) (score a)) as [Hle | Hgt]; [done|].
  rewrite (filter_cons _ a), IH, !(filter_cons _ e), !(filter_cons _ a).
  repeat case_decide; try done; lia.
Qed.

Lemma sortByScore_stable l (s : Z) :
  filter (λ a, score a = s) (sortByScore l) = filter (λ a, score a = s) l.
Proof.
  induction l as [|a l IH]; simpl; [done|].
  by rewrite insertByScore_stable, !(filter_cons _ a), IH.
Qed.

Lemma sortByScore_id l : StronglySorted byScore l → sortByScore l = l.
Proof.
  induction 1 as [|a l Hl IH Ha]; simpl; [done|]. rewrite IH.
  destruct l as [|b l]; [done|]. simpl.
  apply Forall_inv in Ha. unfold byScore in Ha.
  by destruct (Z.leb_spec (score a) (score b)); [|lia].
Qed.

(** ** saveScore *)

Lemma saveScore_take name s d stored :
  saveScore name s d stored
  = Some (take 5 (sortByScore (default [] stored ++ [mkEntry name s d]))).
Proof.
  unfold saveScore. f_equal.
  destruct (Z.ltb_spec 5 (Z.of_nat (length (sortByScore
              (default [] stored ++ [mkEntry name s d]))))); [done|].
  symmetry. apply take_ge. lia.
Qed.

(** X15.  Whatever is stored, [saveScore] leaves a leaderboard that is
    ordered by score and holds the five best of the old entries and the
    new one (all of them when they are five or fewer): what is kept and
    what is dropped make up the old entries and the new one, and nothing
    kept has a higher score than anything dropped. *)
Theorem saveScore_keeps_five_best name s d stored :
  ∃ kept dropped,
    saveScore name s d stored = Some kept
    ∧ sortedByScore kept = true
    ∧ length kept = Nat.min 5 (S (length (default [] stored)))
    ∧ default [] stored ++ [mkEntry name s d] ≡ₚ kept ++ dropped
    ∧ ∀ k x, k ∈ kept → x ∈ dropped → score k ≤ score x.
Proof.
  set (all := default [] stored ++ [mkEntry name s d]).
  exists (take 5 (sortByScore all)), (drop 5 (sortByScore all)).
  pose proof (sortByScore_sorted all) as Hsorted.
  rewrite <- (take_drop 5 (sortByScore all)) in Hsorted.
  split; [apply saveScore_take|]. split; [|split; [|split]].
  - apply sortedByScore_spec. by apply StronglySorted_app_1_l in Hsorted.
  - rewrite length_take, sortByScore_perm. unfold all.
    rewrite length_app. cbn [length]. lia.
  - by rewrite take_drop, sortByScore_perm.
  - intros k x Hk Hx.
    by apply (StronglySorted_app_1_elem_of byScore _ _ k x Hsorted).
Qed.

(** X16.  On a full, ordered leaderboard a new score gets in only by
    beating the fifth: with a score no better than every entry's the
    stored leaderboard stays as it is (a tie with the fifth is not
    enough), with a score below the fifth's the new entry is on it. *)
Theorem saveScore_on_full_board name s d board fifth :
  sortedByScore board = true → length board = 5%nat →
  board !! 4%nat = Some fifth →
  (score fifth ≤ s → saveScore name s d (Some board) = Some board)
  ∧ (s < score fifth →
     ∃ kept, saveScore name s d (Some board) = Some kept
             ∧ mkEntry name s d ∈ kept ∧ length kept = 5%nat).
Proof.
  intros Hsorted Hlen Hfifth. apply sortedByScore_spec in Hsorted.
  rewrite saveScore_take. simpl. split.
  - intros Hle. f_equal.
    assert (StronglySorted byScore (board ++ [mkEntry name s d])) as Hall.
    { apply StronglySorted_app_2; [|done | repeat constructor].
      intros a b Ha Hb. apply list_elem_of_singleton in Hb as ->.
      unfold byScore. simpl.
      apply list_elem_of_lookup in Ha as [i Hi].
      pose proof (lookup_lt_Some _ _ _ Hi) as Hi5.
      destruct (decide (i = 4%nat)) as [-> | Hne].
      { rewrite Hfifth in Hi. by injection Hi as <-. }
      rewrite <- (take_drop 4 board) in Hsorted.
      assert (a ∈ take 4 board) as Hin.
      { apply elem_of_take. exists i. split; [done | lia]. }
      assert (fifth ∈ drop 4 board) as Hin5.
      { apply list_elem_of_lookup. exists 0%nat.
        by rewrite lookup_drop, Nat.add_0_r. }
      pose proof (StronglySorted_app_1_elem_of byScore _ _ a fifth Hsorted Hin Hin5).
      unfold byScore in *. lia. }
    rewrite (sortByScore_id _ Hall). by apply take_app_length'.
  - intros Hlt.
    set (sorted := sortByScore (board ++ [mkEntry name s d])).
    exists (take 5 sorted). split; [done|].
    assert (length sorted = 6%nat) as Hlen6.
    { unfold sorted. rewrite sortByScore_perm, length_app, Hlen. done. }
    split; [|rewrite length_take; lia].
    pose proof (sortByScore_sorted (board ++ [mkEntry name s d])) as Hs.
    fold sorted in Hs. rewrite <- (take_drop 5 sorted) in Hs.
    assert (mkEntry name s d ∈ sorted) as Hnew.
    { unfold sorted. rewrite sortByScore_perm. apply elem_of_app. right.
      by apply list_elem_of_singleton. }
    rewrite <- (take_drop 5 sorted) in Hnew.
    apply elem_of_app in Hnew as [Hkept | Hdropped]; [done|]. exfalso.
    assert (drop 5 sorted = [mkEntry name s d]) as Hdrop.
    { destruct (drop 5 sorted) as [|x [|y l]] eqn:Hd.
      - by apply elem_of_nil in Hdropped.
      - by apply list_elem_of_singleton in Hdropped as ->.
      - apply (f_equal length) in Hd. rewrite length_drop, Hlen6 in Hd.
        discriminate. }
    assert (take 5 sorted ≡ₚ board) as Hperm.
    { apply (Permutation_app_inv_r [mkEntry name s d]).
      assert (take 5 sorted ++ [mkEntry name s d] = sorted) as ->.
      { rewrite <- Hdrop. apply take_drop. }
      unfold sorted. apply sortByScore_perm. }
    assert (fifth ∈ take 5 sorted) as Hin.
    { rewrite Hperm. by apply (list_elem_of_lookup_2 _ 4). }
    rewrite Hdrop in Hs.
    pose proof (StronglySorted_app_1_elem_of byScore _ _ fifth
                  (mkEntry name s d) Hs Hin ltac:(by left)) as Hle.
    unfold byScore in Hle. simpl in Hle. lia.
Qed.

Lemma saveScore_keeps_five_best_witness :
  saveScore "NEW" 2500 "1/6/2025" (Some sampleBoard)
  = Some [ mkEntry "ANN" 2100 "1/1/2025"; mkEntry "BOB" 2400 "1/2/2025";
           mkEntry "NEW" 2500 "1/6/2025"; mkEntry "CAT" 2600 "1/3/2025";
           mkEntry "DAN" 2600 "1/4/2025" ].
Proof.
  destruct (saveScore_keeps_five_best "NEW" 2500 "1/6/2025" (Some sampleBoard))
    as (kept & dropped & Hsaved & _).
  rewrite Hsaved. f_equal. injection Hsaved as <-. reflexivity.
Defined.

Lemma saveScore_on_full_board_witness :
  saveScore "NEW" 3000 "1/6/2025" (Some sampleBoard) = Some sampleBoard.
Proof.
  apply (saveScore_on_full_board "NEW" 3000 "1/6/2025" sampleBoard
           (mkEntry "EVE" 3000 "1/5/2025")); [reflexivity.. | simpl; lia].
Defined.

(** ** A game played by the rules *)

Lemma startGame_waiting g :
  pending g = [] →
  waiting (startGame g) (nextTimer g)
  ∧ currentRound (startGame g) = 1
  ∧ reactionTimes (startGame g) = []
  ∧ active (startGame g) = [gameScreen]
  ∧ leaderboard (startGame g) = leaderboard g.
Proof.
  intros Hpending. unfold waiting, startGame, nextRound. simpl.
  by rewrite Hpending.
Qed.

Lemma filter_only (id : nat) : filter (λ j, j ≠ id) [id] = [].
Proof. rewrite filter_cons_False by (by intros ?). done. Qed.

(** A round before the last: the time is recorded and the next timer is
    set. *)
Lemma playRound_next g id r :
  waiting g id → currentRound g < MAX_ROUNDS →
  waiting (playRound g r) (nextTimer g)
  ∧ currentRound (playRound g r) = currentRound g + 1
  ∧ reactionTimes (playRound g r) = reactionTimes g ++ [r.2 - r.1]
  ∧ active (playRound g r) = active g
  ∧ leaderboard (playRound g r) = leaderboard g.
Proof.
  intros (Hactive & Hid & Hpending) Hround.
  unfold waiting, playRound. rewrite Hid. cbn [step].
  rewrite Hpending, bool_decide_eq_true_2 by (by left).
  unfold showTarget, handleInput, nextRound. simpl.
  destruct (Z.geb_spec (currentRound g) MAX_ROUNDS) as [Hge|_]; [lia|].
  simpl. by rewrite filter_only.
Qed.

(** The last round: the game is finished. *)
Lemma playRound_last g id r :
  waiting g id → MAX_ROUNDS ≤ currentRound g →
  playRound g r
  = mkState (currentRound g) (reactionTimes g ++ [r.2 - r.1]) r.1 (Some id)
            false [] (nextTimer g) [resultScreen] displayNone (roundCounter g)
            (totalOf (reactionTimes g ++ [r.2 - r.1]))
            (totalOf (reactionTimes g ++ [r.2 - r.1]) / MAX_ROUNDS)
            displayFlex "" (leaderboard g).
Proof.
  intros (Hactive & Hid & Hpending) Hround.
  unfold playRound. rewrite Hid. cbn [step].
  rewrite Hpending, bool_decide_eq_true_2 by (by left).
  unfold showTarget, handleInput, nextRound. simpl.
  destruct (Z.geb_spec (currentRound g) MAX_ROUNDS) as [_|Hlt]; [|lia].
  unfold finishGame, showScreen. simpl. by rewrite filter_only, Hid.
Qed.

Lemma playRounds_waiting rs g id :
  waiting g id → currentRound g + Z.of_nat (length rs) ≤ MAX_ROUNDS →
  (∃ id', waiting (playRounds g rs) id')
  ∧ currentRound (playRounds g rs) = currentRound g + Z.of_nat (length rs)
  ∧ reactionTimes (playRounds g rs)
    = reactionTimes g ++ ((λ r, r.2 - r.1) <$> rs)
  ∧ active (playRounds g rs) = active g
  ∧ leaderboard (playRounds g rs) = leaderboard g.
Proof.
  revert g id. induction rs as [|r rs IH]; intros g id Hwait Hround.
  - simpl. rewrite app_nil_r, Z.add_0_r. eauto 10.
  - cbn [length] in Hround.
    destruct (playRound_next g id r Hwait ltac:(lia))
      as (Hwait' & Hround' & Htimes' & Hactive' & Hboard').
    destruct (IH (playRound g r) _ Hwait' ltac:(lia))
      as (Hw & Hr & Ht & Ha & Hb).
    unfold playRounds in *. cbn [foldl length fmap list_fmap].
    split; [done|]. split; [lia|]. split; [|split; congruence].
    rewrite Ht, Htimes', <- app_assoc. done.
Qed.

(** ** States *)

Lemma gameOver_dead g es :
  gameActive g = false → pending g = [] → active g = [gameOverScreen] →
  Forall (λ e, playEvent e = true) es → run g es = g.
Proof.
  intros Hactive Hpending Hscreen. induction 1 as [|e es He _ IH]; [done|].
  unfold run in *. cbn [foldl].
  assert (step g e = g) as ->; [|done].
  destruct e as [|id now|onTarget now| |]; try discriminate; cbn [step].
  - rewrite Hpending. by rewrite bool_decide_eq_false_2 by (apply not_elem_of_nil).
  - unfold handleInput. rewrite Hactive. destruct onTarget; [done|].
    unfold gameOver, showScreen. simpl. rewrite Hpending.
    destruct g; simpl in *; subst.
    by destruct timerId0.
Qed.

Lemma reachable_rounds g :
  reachable g →
  0 ≤ currentRound g ≤ MAX_ROUNDS
  ∧ (gameActive g = true → targetDisplay g = displayBlock)
  ∧ (∀ j, j ∈ pending g → (j < nextTimer g)%nat).
Proof.
  induction 1 as [| g e _ (Hround & Hshown & Hfresh)].
  - simpl. unfold MAX_ROUNDS. split; [lia|]. split; [done|].
    intros j Hj. by apply elem_of_nil in Hj.
  - assert (∀ h : State,
              0 ≤ currentRound h ≤ MAX_ROUNDS →
              (∀ j, j ∈ pending h → (j < nextTimer h)%nat) →
              0 ≤ currentRound (nextRound h) ≤ MAX_ROUNDS
              ∧ (gameActive (nextRound h) = true →
                 gameActive h = true ∧ MAX_ROUNDS ≤ currentRound h)
              ∧ targetDisplay (nextRound h)
                = (if currentRound h >=? MAX_ROUNDS then targetDisplay h
                   else displayNone)
              ∧ (∀ j, j ∈ pending (nextRound h) → (j < nextTimer (nextRound h))%nat))
      as Hnext.
    { intros h Hr Hf. unfold nextRound.
      destruct (Z.geb_spec (currentRound h) MAX_ROUNDS) as [Hge | Hlt]; simpl.
      - repeat split; try done; lia.
      - split; [lia|]. split; [done|]. split; [done|].
        intros j Hj. apply elem_of_app in Hj as [Hj | Hj].
        + specialize (Hf j Hj). lia.
        + apply list_elem_of_singleton in Hj as ->. lia. }
    destruct e as [|id now|onTarget now|trimmed today|]; cbn [step].
    + unfold startGame.
      match goal with |- context [nextRound ?h] =>
        destruct (Hnext h) as (Hr & Ha & Hd & Hf) end.
      { simpl. unfold MAX_ROUNDS. lia. }
      { exact Hfresh. }
      split; [done|]. split; [|done].
      intros Hact. apply Ha in Hact as [_ Hge]. simpl in Hge.
      unfold MAX_ROUNDS in Hge. lia.
    + case_bool_decide; [|done]. simpl. split; [done|]. split; [done|].
      intros j Hj. apply list_elem_of_filter in Hj as [_ Hj]. by apply Hfresh.
    + unfold handleInput. destruct onTarget.
      * destruct (gameActive g) eqn:Hact; simpl.
        2: { split; [done|]. split; [by rewrite Hact | done]. }
        match goal with |- context [nextRound ?h] =>
          destruct (Hnext h) as (Hr & Ha & Hd & Hf) end; [done..|].
        split; [done|]. split; [|done].
        intros Hact'. by apply Ha in Hact' as [Hno _].
      * simpl. split; [done|]. split; [done|].
        intros j Hj. destruct (timerId g); [|by apply Hfresh].
        apply list_elem_of_filter in Hj as [_ Hj]. by apply Hfresh.
    + done.
    + done.
Qed.

(** ** Properties of the game *)

(** X17.  A game played by the rules: after Start and ten rounds in
    which the timer fires and the target is then hit, the script has
    recorded the ten differences between hit and appearance, in order,
    shows their sum and the tenth of it rounded down, is on the result
    screen with the save section open, and has no timer left. *)
Theorem regular_game g rs :
  pending g = [] → length rs = 10%nat →
  reactionTimes (playRounds (step g Start) rs) = (λ r, r.2 - r.1) <$> rs
  ∧ currentRound (playRounds (step g Start) rs) = 10
  ∧ finalScore (playRounds (step g Start) rs)
    = totalOf ((λ r, r.2 - r.1) <$> rs)
  ∧ averageScore (playRounds (step g Start) rs)
    = totalOf ((λ r, r.2 - r.1) <$> rs) / 10
  ∧ active (playRounds (step g Start) rs) = [resultScreen]
  ∧ saveScoreDisplay (playRounds (step g Start) rs) = displayFlex
  ∧ gameActive (playRounds (step g Start) rs) = false
  ∧ pending (playRounds (step g Start) rs) = []
  ∧ leaderboard (playRounds (step g Start) rs) = leaderboard g.
Proof.
  intros Hpending Hlen. cbn [step].
  destruct (startGame_waiting g Hpending) as (Hwait & Hround & Htimes & _ & Hboard).
  assert (∃ init r, rs = init ++ [r] ∧ length init = 9%nat)
    as (init & r & -> & Hinit).
  { exists (take 9 rs). destruct (drop 9 rs) as [|r [|r' l]] eqn:Hdrop.
    - apply (f_equal length) in Hdrop. rewrite length_drop, Hlen in Hdrop.
      discriminate.
    - exists r. split; [by rewrite <- Hdrop, take_drop|].
      rewrite length_take. lia.
    - apply (f_equal length) in Hdrop. rewrite length_drop, Hlen in Hdrop.
      discriminate. }
  destruct (playRounds_waiting init (startGame g) _ Hwait)
    as ((id' & Hwait') & Hround' & Htimes' & _ & Hboard').
  { rewrite Hround, Hinit. unfold MAX_ROUNDS. lia. }
  unfold playRounds in *. rewrite foldl_app. cbn [foldl].
  rewrite (playRound_last _ id' r Hwait')
    by (rewrite Hround', Hround, Hinit; unfold MAX_ROUNDS; lia).
  cbn [reactionTimes currentRound finalScore averageScore active
       saveScoreDisplay gameActive pending leaderboard].
  rewrite Htimes', Htimes, Hround', Hround, Hinit, Hboard', Hboard, fmap_app.
  by repeat split.
Qed.

(** X18.  A miss ends the game for good: when the timer the script
    remembers is the only one pending, a press beside the target leads to
    the game-over screen with no timer left and nothing recorded, and no
    timer or mouse event changes that state afterwards. *)
Theorem miss_ends_game g now es :
  clearTimeout (timerId g) (pending g) = [] →
  Forall (λ e, playEvent e = true) es →
  active (step g (MouseDown false now)) = [gameOverScreen]
  ∧ gameActive (step g (MouseDown false now)) = false
  ∧ pending (step g (MouseDown false now)) = []
  ∧ reactionTimes (step g (MouseDown false now)) = reactionTimes g
  ∧ run (step g (MouseDown false now)) es = step g (MouseDown false now).
Proof.
  intros Hclear Hes. cbn [step]. unfold handleInput.
  repeat split; try done. by apply gameOver_dead.
Qed.

(** X19.  In every order of events, the round counter stays between 0
    and MAX_ROUNDS, and whenever a hit would count ([gameActive]) the
    target is displayed. *)
Theorem round_and_target g :
  reachable g →
  0 ≤ currentRound g ≤ MAX_ROUNDS
  ∧ (gameActive g = true → targetDisplay g = displayBlock).
Proof.
  intros Hg. destruct (reachable_rounds g Hg) as (Hround & Hshown & _).
  by split.
Qed.

(** ** The properties on sample games *)

Lemma regular_game_witness :
  reactionTimes (playRounds (step freshPage Start) tenRounds)
  = [250; 310; 205; 280; 190; 330; 240; 275; 215; 305]
  ∧ finalScore (playRounds (step freshPage Start) tenRounds) = 2600
  ∧ active (playRounds (step freshPage Start) tenRounds) = [resultScreen].
Proof.
  destruct (regular_game freshPage tenRounds eq_refl eq_refl)
    as (Htimes & _ & Hscore & _ & Hscreen & _).
  split; [exact Htimes|]. split; [exact Hscore | exact Hscreen].
Defined.

Lemma miss_ends_game_witness :
  active (step (playRounds (step freshPage Start) (take 3 tenRounds))
               (MouseDown false 6500))
  = [gameOverScreen]
  ∧ run (step (playRounds (step freshPage Start) (take 3 tenRounds))
              (MouseDown false 6500))
        [TimerFires 4 7000; MouseDown true 7200]
    = step (playRounds (step freshPage Start) (take 3 tenRounds))
           (MouseDown false 6500).
Proof.
  destruct (miss_ends_game
              (playRounds (step freshPage Start) (take 3 tenRounds)) 6500
              [TimerFires 4 7000; MouseDown true 7200])
    as (Hscreen & _ & _ & _ & Hdead).
  - vm_compute. reflexivity.
  - repeat constructor.
  - split; [exact Hscreen | exact Hdead].
Defined.

Lemma round_and_target_witness :
  gameActive (step (step freshPage Start) (TimerFires 1 1000)) = true
  ∧ targetDisplay (step (step freshPage Start) (TimerFires 1 1000))
    = displayBlock.
Proof.
  split; [reflexivity|].
  apply (round_and_target (step (step freshPage Start) (TimerFires 1 1000))).
  - apply reach_step, reach_step. unfold freshPage. apply reach_loaded.
  - reflexivity.
Defined.

End ReactionTestFacts.
